(** * Pointer authentication (FEAT_PAuth with Apple's cipher): a shallow embedding

    The development follows tools/lldbmacros/ptrauth of the repository:

    - [Prince]    : prince.py     (PRINCE and Apple's Modified PRINCE)
    - [AppleKdf]  : apple_kdf.py  (the key derivation function)
    - [FeatPAuth] : feat_pauth.py (_BitMask, _PACMask, AddPAC, Auth, Strip)

    Python integers are unbounded, so every value is a [Z]; the bit operators
    [&], [|], [^], [~], [<<] and [>>] are [Z.land], [Z.lor], [Z.lxor],
    [Z.lnot], [Z.shiftl] and [Z.shiftr], which agree with Python's
    two's-complement reading of negative numbers.  A shift by a negative
    amount raises [ValueError] in Python; where the amount depends on an
    argument the shift is modelled by [py_shl], which returns [None]. *)

From Stdlib Require Import ZArith List Bool Lia FinFun.
From Stdlib Require String.
Import ListNotations.
Local Open Scope Z_scope.

(** ** Python helpers *)

(** [range(n)] *)
Definition range (n : nat) : list Z := map Z.of_nat (seq 0 n).

(** [range(0, 4 * n, 4)] *)
Definition range4 (n : nat) : list Z := map (fun k => 4 * k) (range n).

(** [l[i]] for an index that is in range.  Python raises [IndexError] past the
    end of the list, where the model returns 0: the tables [S], [SR],
    [M_PRIME], [RC] and [RC_Apple] are only indexed in range, and a table
    passed to [prince_core] needs its 12 entries. *)
Definition getitem (l : list Z) (i : Z) : Z := nth (Z.to_nat i) l 0.

(** [l.index(v)]: the position of the first occurrence of [v].  Python raises
    when [v] is absent; the model then returns the length of the list.  The
    tables searched below are permutations of 0..15 and the value searched is
    always in 0..15 (see [S_index_getitem] and [SR_index_getitem]). *)
Fixpoint index (l : list Z) (v : Z) : Z :=
  match l with
  | [] => 0
  | x :: l' => if x =? v then 0 else 1 + index l' v
  end.

(** [a << n], which raises [ValueError] on a negative shift count. *)
Definition py_shl (a n : Z) : option Z :=
  if n <? 0 then None else Some (Z.shiftl a n).

(** A small error monad for the functions that can raise. *)
Definition bind {A B : Type} (m : option A) (f : A -> option B) : option B :=
  match m with
  | Some a => f a
  | None => None
  end.

Notation "x <- m ;; k" := (bind m (fun x => k))
  (at level 61, m at next level, right associativity).

(** ** prince.py *)

Module Prince.

Definition M_PRIME : list Z := [
  0x0888000000000000; 0x4044000000000000; 0x2202000000000000; 0x1110000000000000;
  0x8880000000000000; 0x0444000000000000; 0x2022000000000000; 0x1101000000000000;
  0x8808000000000000; 0x4440000000000000; 0x0222000000000000; 0x1011000000000000;
  0x8088000000000000; 0x4404000000000000; 0x2220000000000000; 0x0111000000000000;
  0x0000888000000000; 0x0000044400000000; 0x0000202200000000; 0x0000110100000000;
  0x0000880800000000; 0x0000444000000000; 0x0000022200000000; 0x0000101100000000;
  0x0000808800000000; 0x0000440400000000; 0x0000222000000000; 0x0000011100000000;
  0x0000088800000000; 0x0000404400000000; 0x0000220200000000; 0x0000111000000000;
  0x0000000088800000; 0x0000000004440000; 0x0000000020220000; 0x0000000011010000;
  0x0000000088080000; 0x0000000044400000; 0x0000000002220000; 0x0000000010110000;
  0x0000000080880000; 0x0000000044040000; 0x0000000022200000; 0x0000000001110000;
  0x0000000008880000; 0x0000000040440000; 0x0000000022020000; 0x0000000011100000;
  0x0000000000000888; 0x0000000000004044; 0x0000000000002202; 0x0000000000001110;
  0x0000000000008880; 0x0000000000000444; 0x0000000000002022; 0x0000000000001101;
  0x0000000000008808; 0x0000000000004440; 0x0000000000000222; 0x0000000000001011;
  0x0000000000008088; 0x0000000000004404; 0x0000000000002220; 0x0000000000000111 ].

Definition RC : list Z := [
  0x0000000000000000; 0x13198a2e03707344; 0xa4093822299f31d0; 0x082efa98ec4e6c89;
  0x452821e638d01377; 0xbe5466cf34e90c6c; 0x7ef84f78fd955cb1; 0x85840851f1ac43aa;
  0xc882d32f25323c54; 0x64a51195e0e3610d; 0xd3b5a399ca0c2399; 0xc0ac29b7c97c50dd ].

Definition RC_Apple : list Z := [
  0x0000000000000000; 0x13198a2e03707344; 0xa4093822299f31d0; 0x082efa98ec4e6c89;
  0x452821e638d01377; 0xbe5466cf34e90c6c; 0xc0ac29b7c97c50dd; 0x3f84d5b5b5470917;
  0x9216d5d98979fb1b; 0xd1310ba698dfb5ac; 0x2ffd72dbd01adfb7; 0xb8e1afed6a267e97 ].

Definition S : list Z :=
  [0xb; 0xf; 0x3; 0x2; 0xa; 0xc; 0x9; 0x1; 0x6; 0x7; 0x8; 0x0; 0xe; 0x5; 0xd; 0x4].

Definition SR : list Z :=
  [0; 5; 10; 15; 4; 9; 14; 3; 8; 13; 2; 7; 12; 1; 6; 11].

Definition s (state : Z) : Z :=
  fold_left
    (fun ret i =>
       let nybble := Z.land (Z.shiftr state i) 15 in
       Z.lor ret (Z.shiftl (getitem S nybble) i))
    (range4 16) 0.

Definition s_inv (state : Z) : Z :=
  fold_left
    (fun ret i =>
       let nybble := Z.land (Z.shiftr state i) 15 in
       Z.lor ret (Z.shiftl (index S nybble) i))
    (range4 16) 0.

Definition extract_nybble (val i : Z) : Z :=
  Z.land (Z.shiftr val ((15 - i) * 4)) 15.

Definition set_nybble (val i : Z) : Z :=
  Z.shiftl val ((15 - i) * 4).

Definition sr (state : Z) : Z :=
  fold_left
    (fun ret i =>
       let nybble := extract_nybble state (getitem SR i) in
       Z.lor ret (set_nybble nybble i))
    (range 16) 0.

Definition sr_inv (state : Z) : Z :=
  fold_left
    (fun ret i =>
       let sr_inv_i := index SR i in
       let nybble := extract_nybble state sr_inv_i in
       Z.lor ret (set_nybble nybble i))
    (range 16) 0.

Definition m_prime (state : Z) : Z :=
  fold_left
    (fun ret i =>
       let state_i := Z.land (Z.shiftr state (63 - i)) 1 in
       Z.lxor ret (state_i * getitem M_PRIME i))
    (range 64) 0.

Definition m (state : Z) : Z :=
  let state := m_prime state in
  let state := sr state in
  state.

Definition m_inv (state : Z) : Z :=
  let state := sr_inv state in
  let state := m_prime state in
  state.

(** The first loop of [prince_core], for [i] in [range(1, 6)]. *)
Definition forward_round (k1 : Z) (rc : list Z) (state i : Z) : Z :=
  let state := s state in
  let state := m state in
  let state := Z.lxor state (getitem rc i) in
  let state := Z.lxor state k1 in
  state.

(** The second loop of [prince_core], for [i] in [range(6, 11)]. *)
Definition backward_round (k1 : Z) (rc : list Z) (state i : Z) : Z :=
  let state := Z.lxor state k1 in
  let state := Z.lxor state (getitem rc i) in
  let state := m_inv state in
  let state := s_inv state in
  state.

Definition prince_core (state k1 : Z) (rc : list Z) : Z :=
  let state := Z.lxor state k1 in
  let state := Z.lxor state (getitem rc 0) in
  let state := fold_left (forward_round k1 rc) [1; 2; 3; 4; 5] state in
  let state := s state in
  let state := m_prime state in
  let state := s_inv state in
  let state := fold_left (backward_round k1 rc) [6; 7; 8; 9; 10] state in
  let state := Z.lxor state (getitem rc 11) in
  let state := Z.lxor state k1 in
  state.

Definition prince (val k0 k1 : Z) (rc : list Z) : Z :=
  let k0_ror_1 := Z.lor (Z.shiftr k0 1) (Z.shiftl (Z.land k0 1) 63) in
  let k0_inv := Z.lxor k0_ror_1 (Z.shiftr k0 63) in
  let state := Z.lxor val k0 in
  let state := prince_core state k1 rc in
  let state := Z.lxor state k0_inv in
  state.

Definition modified_prince (val k0 k1 modifier : Z) : Z :=
  prince val k0 (Z.lxor k1 modifier) RC_Apple.

End Prince.

(** ** apple_kdf.py *)

Module AppleKdf.
Import Prince.

(** [class KdfUsage(IntEnum)] *)
Inductive KdfUsage : Set :=
  | APIAKey | APIBKey | APDAKey | APDBKey | APGAKey | KERNKey | JAPIAKey | JAPIBKey.

Definition usage_value (u : KdfUsage) : Z :=
  match u with
  | APIAKey => 0   (* 0b0000 *)
  | APIBKey => 1   (* 0b0001 *)
  | APDAKey => 2   (* 0b0010 *)
  | APDBKey => 3   (* 0b0011 *)
  | APGAKey => 4   (* 0b0100 *)
  | KERNKey => 5   (* 0b0101 *)
  | JAPIAKey => 8  (* 0b1000 *)
  | JAPIBKey => 9  (* 0b1001 *)
  end.

(** The local [modifier1] of [kdf]:
    [((usage & 0b1000) << 2) | 0b00000 | (usage & 0b111)]. *)
Definition modifier1 (usage : Z) : Z :=
  Z.lor (Z.lor (Z.shiftl (Z.land usage 8) 2) 0) (Z.land usage 7).

(** The local [modifier2] of [kdf]:
    [((usage & 0b1000) << 2) | 0b01000 | (usage & 0b111)]. *)
Definition modifier2 (usage : Z) : Z :=
  Z.lor (Z.lor (Z.shiftl (Z.land usage 8) 2) 8) (Z.land usage 7).

Definition kdf (ikey_hi ikey_lo data_hi data_lo usage : Z) : Z * Z :=
  let modifier1 := modifier1 usage in
  let tmp1 := modified_prince data_hi ikey_hi ikey_lo modifier1 in
  let okey_hi := modified_prince (Z.lxor tmp1 data_lo) ikey_hi ikey_lo modifier1 in
  let modifier2 := modifier2 usage in
  let tmp2 := modified_prince data_hi ikey_hi ikey_lo modifier2 in
  let okey_lo := modified_prince (Z.lxor tmp2 data_lo) ikey_hi ikey_lo modifier2 in
  (okey_hi, okey_lo).

End AppleKdf.

(** ** feat_pauth.py *)

Module FeatPAuth.
Import Prince.

Definition _BitMask (bit_from bit_to : Z) : option Z :=
  width <- py_shl 1 (bit_to - bit_from + 1) ;;
  py_shl (width - 1) bit_from.

Definition _PACMask (bottom_pac_bit : Z) (tbi : bool) : option Z :=
  ret <- _BitMask bottom_pac_bit 54 ;;
  if negb tbi then
    top <- _BitMask 56 63 ;;
    Some (Z.lor ret top)
  else Some ret.

Definition Strip (ptr bottom_pac_bit : Z) (tbi : bool) : option Z :=
  pac_mask <- _PACMask bottom_pac_bit tbi ;;
  let ret := Z.land ptr (Z.lnot pac_mask) in
  let ret :=
    if negb (Z.land ptr (Z.shiftl 1 55) =? 0) then Z.lor ret pac_mask else ret in
  Some ret.

Definition AddPAC (ptr k_hi k_lo modifier bottom_pac_bit : Z)
    (tbi have_enhanced_pac have_enhanced_pac2 : bool) : option Z :=
  let top_bit := if tbi then 55 else 63 in
  original_ptr <- Strip ptr bottom_pac_bit tbi ;;
  extension_mask <- _BitMask bottom_pac_bit top_bit ;;
  let extension_bits := Z.land ptr extension_mask in
  let input_is_poisoned :=
    negb ((extension_bits =? 0) || (extension_bits =? extension_mask)) in
  let pac :=
    if input_is_poisoned && have_enhanced_pac then 0
    else
      let pac := modified_prince original_ptr k_hi k_lo modifier in
      if input_is_poisoned && negb have_enhanced_pac2
      then Z.lxor pac (Z.shiftl 1 (top_bit - 1))
      else pac in
  pac_mask <- _PACMask bottom_pac_bit tbi ;;
  let ret := ptr in
  let ret :=
    if have_enhanced_pac2 then Z.lxor ret (Z.land pac pac_mask)
    else Z.lor (Z.land ret (Z.lnot pac_mask)) (Z.land pac pac_mask) in
  Some ret.

Definition Auth (ptr k_hi k_lo : Z) (b_key : bool) (modifier bottom_pac_bit : Z)
    (tbi have_enhanced_pac2 : bool) : option Z :=
  original_ptr <- Strip ptr bottom_pac_bit tbi ;;
  let pac := modified_prince original_ptr k_hi k_lo modifier in
  pac_mask <- _PACMask bottom_pac_bit tbi ;;
  if have_enhanced_pac2 then Some (Z.lxor ptr (Z.land pac pac_mask))
  else
    let ret := original_ptr in
    let ret :=
      if negb (Z.land ptr pac_mask =? Z.land pac pac_mask) then
        let error_code := if b_key then 2 else 1 in
        let error_code_shift := if tbi then 53 else 61 in
        let ret := Z.land ret (Z.lnot (Z.shiftl 3 error_code_shift)) in
        let ret := Z.lor ret (Z.shiftl error_code error_code_shift) in
        ret
      else ret in
    Some ret.

End FeatPAuth.

(** ** ptrauth_lldb.py

    The helpers of the lldb macros read the kernel's globals through
    [kern.GetGlobalVariable] and convert them with [unsigned]; both belong to
    the xnu lldb package, not to this repository.  The globals that are read
    are taken here as a record, each field holding the unsigned value of the
    variable.  A raised [ArgumentError] or [ValueError] is an [outcome]. *)

Inductive exn : Set := ArgumentError | ValueError.

Inductive outcome (A : Type) : Type :=
  | Ok (a : A)
  | Raise (e : exn).

Arguments Ok {A} a.
Arguments Raise {A} e.

(** A call of [feat_pauth], whose only exception is the [ValueError] of a
    negative shift count. *)
Definition of_option {A : Type} (o : option A) : outcome A :=
  match o with
  | Some a => Ok a
  | None => Raise ValueError
  end.

(** [s.endswith(suffix)] *)
Fixpoint endswith (s suffix : String.string) : bool :=
  String.eqb s suffix ||
  match s with
  | String.EmptyString => false
  | String.String _ s' => endswith s' suffix
  end.

(** [s.startswith(prefix)] *)
Definition startswith (s prefix : String.string) : bool := String.prefix prefix s.

(** The fields of [faulting_pac_state] that the macros read. *)
Record PacState : Set := {
  id_aa64isar1_el1_api : Z;
  apctl_el1_kernkeyen : Z;
  apdakeyhi_el1 : Z; apdakeylo_el1 : Z;
  apdbkeyhi_el1 : Z; apdbkeylo_el1 : Z;
  apiakeyhi_el1 : Z; apiakeylo_el1 : Z;
  apibkeyhi_el1 : Z; apibkeylo_el1 : Z;
  kernkeyhi_el1 : Z; kernkeylo_el1 : Z;
  acc_mkeyhi : Z; acc_mkeylo : Z
}.

(** The kernel globals that the macros read: [gT0Sz], [gT1Sz],
    [sysreg_restore.tcr_el1] and [faulting_pac_state]. *)
Record Kern : Set := {
  gT0Sz : Z;
  gT1Sz : Z;
  tcr_el1 : Z;
  faulting_pac_state : PacState
}.

Module PtrauthLldb.
Import Prince AppleKdf FeatPAuth.
Import String.

Definition _ARM_KEYS : list String.string := ["DA"%string; "DB"%string; "IA"%string; "IB"%string].
Definition _ALL_KEYS : list String.string := _ARM_KEYS ++ ["KERN"%string].
Definition _GLOBAL_KEYS : list String.string :=
  filter (fun i => negb (endswith i "B"%string)) _ALL_KEYS.
Definition _SIGN_BIT : Z := Z.shiftl 1 55.

Definition _KERNEL_ROP_ID : Z := 0xfeedfacefeedfacf.
Definition _KERNEL_KERNKEY_ID : Z := _KERNEL_ROP_ID + 4.
Definition _KERNEL_JOP_ID : Z := _KERNEL_KERNKEY_ID + 2.

Definition _bottom_pac_bit (kern : Kern) (ptr : Z) : Z :=
  let txsz := if Z.land ptr _SIGN_BIT =? 0 then gT0Sz kern else gT1Sz kern in
  64 - txsz.

(** The value returned by [_tbi] is only ever tested for truth; the model
    returns that truth value. *)
Definition _tbi (kern : Kern) (ptr : Z) (data : bool) : bool :=
  let TCR_TBI0_TOPBYTE_IGNORED := Z.shiftl 1 37 in
  let TCR_TBI1_TOPBYTE_IGNORED := Z.shiftl 1 38 in
  let TCR_TBID0_TBI_DATA_ONLY := Z.shiftl 1 51 in
  let TCR_TBID1_TBI_DATA_ONLY := Z.shiftl 1 52 in
  let tcr_el1 := tcr_el1 kern in
  let topbyte_ignored :=
    if Z.land ptr _SIGN_BIT =? 0 then Z.land tcr_el1 TCR_TBI0_TOPBYTE_IGNORED
    else Z.land tcr_el1 TCR_TBI1_TOPBYTE_IGNORED in
  let tbi_data_only :=
    if Z.land ptr _SIGN_BIT =? 0 then Z.land tcr_el1 TCR_TBID0_TBI_DATA_ONLY
    else Z.land tcr_el1 TCR_TBID1_TBI_DATA_ONLY in
  negb (topbyte_ignored =? 0) && (data || (tbi_data_only =? 0)).

Definition _enhanced_pac (kern : Kern) : bool :=
  let pac_state := faulting_pac_state kern in
  (id_aa64isar1_el1_api pac_state =? 2) || (id_aa64isar1_el1_api pac_state =? 3).

Definition _enhanced_pac2 (kern : Kern) : bool :=
  let pac_state := faulting_pac_state kern in
  (id_aa64isar1_el1_api pac_state =? 4) || (id_aa64isar1_el1_api pac_state =? 5).

Definition _cpu_key (kern : Kern) (key_name : String.string) : outcome (Z * Z) :=
  let pac_state := faulting_pac_state kern in
  if String.eqb key_name "DA"%string then
    Ok (apdakeyhi_el1 pac_state, apdakeylo_el1 pac_state)
  else if String.eqb key_name "DB"%string then
    Ok (apdbkeyhi_el1 pac_state, apdbkeylo_el1 pac_state)
  else if String.eqb key_name "IA"%string then
    Ok (apiakeyhi_el1 pac_state, apiakeylo_el1 pac_state)
  else if String.eqb key_name "IB"%string then
    Ok (apibkeyhi_el1 pac_state, apibkeylo_el1 pac_state)
  else Raise ArgumentError.

Definition _mix_kernkey (kern : Kern) (k_hi k_lo : Z) : Z * Z :=
  let pac_state := faulting_pac_state kern in
  if negb (apctl_el1_kernkeyen pac_state =? 0) then
    (Z.lxor k_hi (kernkeyhi_el1 pac_state), Z.lxor k_lo (kernkeylo_el1 pac_state))
  else (k_hi, k_lo).

Definition ptrauth_auth (kern : Kern) (key_name : String.string) (ptr modifier : Z)
    : outcome Z :=
  match _cpu_key kern key_name with
  | Raise e => Raise e
  | Ok (k_hi, k_lo) =>
      let '(k_hi, k_lo) := _mix_kernkey kern k_hi k_lo in
      let b_key := endswith key_name "B"%string in
      let bottom_pac_bit := _bottom_pac_bit kern ptr in
      let tbi := _tbi kern ptr (startswith key_name "D"%string) in
      let have_enhanced_pac2 := _enhanced_pac2 kern in
      of_option (Auth ptr k_hi k_lo b_key modifier bottom_pac_bit tbi have_enhanced_pac2)
  end.

Definition ptrauth_sign (kern : Kern) (key_name : String.string) (ptr modifier : Z)
    : outcome Z :=
  match _cpu_key kern key_name with
  | Raise e => Raise e
  | Ok (k_hi, k_lo) =>
      let '(k_hi, k_lo) := _mix_kernkey kern k_hi k_lo in
      let bottom_pac_bit := _bottom_pac_bit kern ptr in
      let tbi := _tbi kern ptr (startswith key_name "D"%string) in
      let have_enhanced_pac := _enhanced_pac kern in
      let have_enhanced_pac2 := _enhanced_pac2 kern in
      of_option (AddPAC ptr k_hi k_lo modifier bottom_pac_bit tbi
                        have_enhanced_pac have_enhanced_pac2)
  end.

Definition ptrauth_strip (kern : Kern) (ptr : Z) (data : bool) : outcome Z :=
  let bottom_pac_bit := _bottom_pac_bit kern ptr in
  let tbi := _tbi kern ptr data in
  let stripped_ptr := of_option (Strip ptr bottom_pac_bit tbi) in
  stripped_ptr.

Definition ptrauth_kernel_key (kern : Kern) (key_name : String.string)
    : outcome (Z * Z) :=
  let pac_state := faulting_pac_state kern in
  let mkey_hi := acc_mkeyhi pac_state in
  let mkey_lo := acc_mkeylo pac_state in
  let selected :=
    if String.eqb key_name "IA"%string then Ok (_KERNEL_JOP_ID, usage_value APIAKey)
    else if String.eqb key_name "DA"%string then Ok (_KERNEL_JOP_ID + 2, usage_value APDAKey)
    else if String.eqb key_name "KERN"%string then Ok (_KERNEL_KERNKEY_ID, usage_value KERNKey)
    else Raise ArgumentError in
  match selected with
  | Raise e => Raise e
  | Ok (data_lo, usage) =>
      let data_hi := data_lo + 1 in
      Ok (kdf mkey_hi mkey_lo data_hi data_lo usage)
  end.

End PtrauthLldb.

(** * Vocabulary of the statements *)

(** Bit [i] lies in the PAC field selected by [bottom_pac_bit] and [tbi]:
    bits [bottom_pac_bit .. 54], and bits [56 .. 63] unless the top byte is
    ignored. *)
Definition in_field (bottom_pac_bit : Z) (tbi : bool) (i : Z) : bool :=
  ((bottom_pac_bit <=? i) && (i <=? 54)) || (negb tbi && ((56 <=? i) && (i <=? 63))).

Definition top_bit (tbi : bool) : Z := if tbi then 55 else 63.

Definition error_code_shift (tbi : bool) : Z := if tbi then 53 else 61.

Definition error_code (b_key : bool) : Z := if b_key then 2 else 1.

(** The two bits that [Auth] overwrites on a failed authentication. *)
Definition error_field (tbi : bool) (ptr : Z) : Z :=
  Z.land (Z.shiftr ptr (error_code_shift tbi)) 3.

(** Writing a 2-bit [code] into bits [lo + 1] and [lo] of [ptr], as the failure
    path of [Auth] does with [lo = error_code_shift]. *)
Definition write_code (ptr lo code : Z) : Z :=
  Z.lor (Z.land ptr (Z.lnot (Z.shiftl 3 lo))) (Z.shiftl code lo).

(** The bit positions [lo], [lo + 1], ..., [hi]. *)
Definition bit_positions (lo hi : Z) : list Z :=
  map (fun k => lo + Z.of_nat k) (seq 0 (Z.to_nat (hi + 1 - lo))).

(** A pointer is canonical when its bits from [bottom_pac_bit] up through the
    top bit are all 0 or all 1, that is, all equal to the top bit. *)
Definition canonical (ptr bottom_pac_bit : Z) (tbi : bool) : bool :=
  forallb (fun i => Bool.eqb (Z.testbit ptr i) (Z.testbit ptr (top_bit tbi)))
          (bit_positions bottom_pac_bit (top_bit tbi)).

Ltac push_testbit :=
  repeat first [ rewrite Z.lor_spec | rewrite Z.land_spec | rewrite Z.lxor_spec
               | rewrite Z.lnot_spec by assumption ].

Ltac bitwise i := apply Z.bits_inj'; intros i ?; push_testbit.

(** Kernel globals used to run the lldb helpers on an example: T0SZ and T1SZ
    are 25 (so [bottom_pac_bit] is 39), TCR_EL1 enables no top-byte-ignore,
    the CPU implements EnhancedPAC, and KERNKey is enabled. *)
Definition example_kern : Kern :=
  {| gT0Sz := 25; gT1Sz := 25; tcr_el1 := 0;
     faulting_pac_state :=
       {| id_aa64isar1_el1_api := 2; apctl_el1_kernkeyen := 1;
          apdakeyhi_el1 := 1; apdakeylo_el1 := 2;
          apdbkeyhi_el1 := 3; apdbkeylo_el1 := 4;
          apiakeyhi_el1 := 5; apiakeylo_el1 := 6;
          apibkeyhi_el1 := 7; apibkeylo_el1 := 8;
          kernkeyhi_el1 := 9; kernkeylo_el1 := 10;
          acc_mkeyhi := 11; acc_mkeylo := 12 |} |}.

(** The nybble of [x] that starts at bit [j]. *)
Definition nyb (j x : Z) : Z := Z.land (Z.shiftr x j) 15.

(** The shape shared by [s] and [s_inv]: a table look-up on every nybble. *)
Definition substitute (tbl : Z -> Z) (state : Z) : Z :=
  fold_left
    (fun ret i => Z.lor ret (Z.shiftl (tbl (Z.land (Z.shiftr state i) 15)) i))
    (range4 16) 0.

(** The shape shared by [sr] and [sr_inv]: nybble [i] of the result is nybble
    [src i] of the state. *)
Definition permute (src : Z -> Z) (state : Z) : Z :=
  fold_left
    (fun ret i => Z.lor ret (Prince.set_nybble (Prince.extract_nybble state (src i)) i))
    (range 16) 0.

(** Bit [i] of a state, counted from the most significant of the 64: the
    [state_i] of [m_prime]. *)
Definition bit_of (state i : Z) : Z := Z.land (Z.shiftr state (63 - i)) 1.

(** The XOR of the rows selected by the bits of [state]. *)
Definition xor_rows (rows : Z -> Z) (l : list Z) (state acc : Z) : Z :=
  fold_left (fun ret i => Z.lxor ret (bit_of state i * rows i)) l acc.

(** The constant PRINCE calls alpha: the last round constant. *)
Definition alpha : Z := getitem Prince.RC 11.

(** The middle layer of [prince_core]. *)
Definition middle (state : Z) : Z :=
  let state := Prince.s state in
  let state := Prince.m_prime state in
  let state := Prince.s_inv state in
  state.

(** The whitening key [k0_inv] that [prince] derives from [k0]:
    [ror1(k0) XOR (k0 >> 63)]. *)
Definition complement (k0 : Z) : Z :=
  let k0_ror_1 := Z.lor (Z.shiftr k0 1) (Z.shiftl (Z.land k0 1) 63) in
  Z.lxor k0_ror_1 (Z.shiftr k0 63).

(** * 64-bit words, bit by bit *)

Section Words.

Lemma word64_of_bits x :
  (forall i, 64 <= i -> Z.testbit x i = false) -> 0 <= x < 2 ^ 64.
Proof.
  intros H.
  assert (Hnn : 0 <= x).
  { apply Z.bits_iff_nonneg_ex. exists 64. intros i Hi. apply H. lia. }
  split; [assumption|].
  destruct (Z.eq_dec x 0) as [->|Hz]; [reflexivity|].
  apply Z.log2_lt_pow2; [lia|].
  destruct (Z.lt_ge_cases (Z.log2 x) 64) as [|Hge]; [assumption|exfalso].
  assert (Hb : Z.testbit x (Z.log2 x) = true) by (apply Z.bit_log2; lia).
  rewrite H in Hb by assumption. discriminate.
Qed.

Lemma word64_high x i : 0 <= x < 2 ^ 64 -> 64 <= i -> Z.testbit x i = false.
Proof.
  intros Hx Hi.
  destruct (Z.eq_dec x 0) as [->|Hz]; [apply Z.bits_0|].
  apply Z.bits_above_log2; [lia|].
  apply Z.lt_le_trans with 64; [|assumption].
  apply Z.log2_lt_pow2; lia.
Qed.

End Words.

(** * Properties of the pointer-authentication operations *)

Section MaskFacts.
Import FeatPAuth.

Lemma py_shl_Some a n r : py_shl a n = Some r -> 0 <= n /\ r = Z.shiftl a n.
Proof.
  unfold py_shl. destruct (Z.ltb_spec n 0); intros E; inversion E; split; trivial.
Qed.

Lemma py_shl_nonneg a n : 0 <= n -> py_shl a n = Some (Z.shiftl a n).
Proof.
  intros H. unfold py_shl. destruct (Z.ltb_spec n 0); [lia | reflexivity].
Qed.

Lemma BitMask_defined bit_from bit_to :
  0 <= bit_from <= bit_to + 1 ->
  _BitMask bit_from bit_to = Some (Z.shiftl (Z.ones (bit_to - bit_from + 1)) bit_from).
Proof.
  intros H. unfold _BitMask.
  rewrite py_shl_nonneg by lia. cbn [bind].
  rewrite py_shl_nonneg by lia.
  now rewrite Z.ones_equiv, Z.shiftl_1_l, <- Z.sub_1_r.
Qed.

Lemma BitMask_Some bit_from bit_to mask :
  _BitMask bit_from bit_to = Some mask ->
  0 <= bit_from <= bit_to + 1 /\
  mask = Z.shiftl (Z.ones (bit_to - bit_from + 1)) bit_from.
Proof.
  unfold _BitMask. intros E.
  destruct (py_shl 1 (bit_to - bit_from + 1)) as [w|] eqn:E1; [|discriminate].
  cbn [bind] in E.
  apply py_shl_Some in E1. apply py_shl_Some in E.
  destruct E1 as [H1 ->], E as [H2 ->].
  split; [lia|].
  now rewrite Z.ones_equiv, Z.shiftl_1_l, <- Z.sub_1_r.
Qed.

Lemma BitMask_raises bit_from bit_to :
  bit_to + 1 < bit_from \/ bit_from < 0 -> _BitMask bit_from bit_to = None.
Proof.
  intros H. destruct (_BitMask bit_from bit_to) as [mask|] eqn:E; [|reflexivity].
  apply BitMask_Some in E. lia.
Qed.

Lemma testbit_ones_shiftl w n i :
  0 <= w -> 0 <= n ->
  Z.testbit (Z.shiftl (Z.ones w) n) i = (n <=? i) && (i <? n + w).
Proof.
  intros Hw Hn.
  destruct (Z.ltb_spec i 0) as [Hi|Hi].
  - rewrite Z.testbit_neg_r by assumption.
    destruct (Z.leb_spec n i); [lia | reflexivity].
  - rewrite Z.shiftl_spec by assumption.
    destruct (Z.leb_spec n i) as [H|H].
    + rewrite Z.testbit_ones_nonneg by lia.
      destruct (Z.ltb_spec (i - n) w), (Z.ltb_spec i (n + w)); trivial; lia.
    + now rewrite Z.testbit_neg_r by lia.
Qed.

Lemma BitMask_testbit bit_from bit_to mask i :
  _BitMask bit_from bit_to = Some mask ->
  Z.testbit mask i = (bit_from <=? i) && (i <=? bit_to).
Proof.
  intros E. apply BitMask_Some in E. destruct E as [H ->].
  rewrite testbit_ones_shiftl by lia. f_equal.
  destruct (Z.ltb_spec i (bit_from + (bit_to - bit_from + 1))), (Z.leb_spec i bit_to);
    trivial; lia.
Qed.

Lemma BitMask_range bit_from bit_to mask :
  _BitMask bit_from bit_to = Some mask -> bit_to <= 63 -> 0 <= mask < 2 ^ 64.
Proof.
  intros E Hto. apply word64_of_bits. intros i Hi.
  rewrite (BitMask_testbit _ _ _ _ E).
  destruct (Z.leb_spec i bit_to); [lia | apply andb_false_r].
Qed.

Lemma PACMask_Some bottom_pac_bit tbi mask :
  _PACMask bottom_pac_bit tbi = Some mask ->
  0 <= bottom_pac_bit <= 55 /\
  forall i, Z.testbit mask i = in_field bottom_pac_bit tbi i.
Proof.
  unfold _PACMask. intros E.
  destruct (_BitMask bottom_pac_bit 54) as [lo|] eqn:Elo; [|discriminate].
  cbn [bind] in E.
  pose proof (BitMask_Some _ _ _ Elo) as [Hb _].
  split; [lia|]. intros i. unfold in_field.
  destruct tbi; cbn [negb] in E |- *.
  - inversion E; subst mask.
    rewrite (BitMask_testbit _ _ _ _ Elo). cbn [andb]. now rewrite orb_false_r.
  - destruct (_BitMask 56 63) as [hi|] eqn:Ehi; [|discriminate].
    cbn [bind] in E. inversion E; subst mask.
    rewrite Z.lor_spec, (BitMask_testbit _ _ _ _ Elo), (BitMask_testbit _ _ _ _ Ehi).
    reflexivity.
Qed.

Lemma PACMask_defined bottom_pac_bit tbi :
  0 <= bottom_pac_bit <= 55 -> exists mask, _PACMask bottom_pac_bit tbi = Some mask.
Proof.
  intros H. unfold _PACMask.
  rewrite (BitMask_defined bottom_pac_bit 54) by lia. cbn [bind].
  destruct tbi; cbn [negb]; [eauto|].
  rewrite (BitMask_defined 56 63) by lia. cbn [bind]. eauto.
Qed.

Lemma PACMask_raises bottom_pac_bit tbi :
  bottom_pac_bit < 0 \/ 55 < bottom_pac_bit -> _PACMask bottom_pac_bit tbi = None.
Proof.
  intros H. destruct (_PACMask bottom_pac_bit tbi) as [mask|] eqn:E; [|reflexivity].
  apply PACMask_Some in E. lia.
Qed.

Lemma in_field_high bottom_pac_bit tbi i :
  64 <= i -> in_field bottom_pac_bit tbi i = false.
Proof.
  intros Hi. unfold in_field.
  destruct (Z.leb_spec i 54); [lia|]. destruct (Z.leb_spec i 63); [lia|].
  now rewrite !andb_false_r.
Qed.

Lemma PACMask_range bottom_pac_bit tbi mask :
  _PACMask bottom_pac_bit tbi = Some mask -> 0 <= mask < 2 ^ 64.
Proof.
  intros E. apply PACMask_Some in E. destruct E as [_ Hm].
  apply word64_of_bits. intros i Hi. rewrite Hm. now apply in_field_high.
Qed.

Lemma in_field_55 bottom_pac_bit tbi : in_field bottom_pac_bit tbi 55 = false.
Proof.
  unfold in_field. cbn. rewrite !andb_false_r. reflexivity.
Qed.

Lemma in_field_neg bottom_pac_bit tbi i :
  0 <= bottom_pac_bit -> i < 0 -> in_field bottom_pac_bit tbi i = false.
Proof.
  intros Hb Hi. unfold in_field.
  destruct (Z.leb_spec bottom_pac_bit i); [lia|].
  destruct (Z.leb_spec 56 i); [lia|].
  cbn. now rewrite andb_false_r.
Qed.

End MaskFacts.

Section StripFacts.
Import FeatPAuth.

Lemma sign_bit_test ptr :
  negb (Z.land ptr (Z.shiftl 1 55) =? 0) = Z.testbit ptr 55.
Proof.
  rewrite Z.shiftl_1_l.
  destruct (Z.testbit ptr 55) eqn:E.
  - destruct (Z.eqb_spec (Z.land ptr (2 ^ 55)) 0) as [H|H]; [|reflexivity].
    assert (F : Z.testbit (Z.land ptr (2 ^ 55)) 55 = true).
    { rewrite Z.land_spec, E, Z.pow2_bits_true by lia. reflexivity. }
    rewrite H, Z.bits_0 in F. discriminate.
  - replace (Z.land ptr (2 ^ 55)) with 0; [reflexivity|].
    symmetry. bitwise i. rewrite Z.bits_0, Z.pow2_bits_eqb by lia.
    destruct (Z.eqb_spec 55 i) as [<-|]; [now rewrite E | apply andb_false_r].
Qed.

Lemma Strip_Some ptr bottom_pac_bit tbi ret :
  Strip ptr bottom_pac_bit tbi = Some ret ->
  exists pac_mask,
    _PACMask bottom_pac_bit tbi = Some pac_mask /\
    ret = if Z.testbit ptr 55
          then Z.lor (Z.land ptr (Z.lnot pac_mask)) pac_mask
          else Z.land ptr (Z.lnot pac_mask).
Proof.
  unfold Strip. destruct (_PACMask bottom_pac_bit tbi) as [pac_mask|]; [|discriminate].
  cbn [bind]. rewrite sign_bit_test. intros E; inversion E. eauto.
Qed.

Lemma Strip_defined ptr bottom_pac_bit tbi :
  0 <= bottom_pac_bit <= 55 -> exists ret, Strip ptr bottom_pac_bit tbi = Some ret.
Proof.
  intros H. destruct (PACMask_defined bottom_pac_bit tbi H) as [mask E].
  unfold Strip. rewrite E. cbn [bind]. eauto.
Qed.

Lemma Strip_raises ptr bottom_pac_bit tbi :
  bottom_pac_bit < 0 \/ 55 < bottom_pac_bit -> Strip ptr bottom_pac_bit tbi = None.
Proof.
  intros H. unfold Strip. now rewrite PACMask_raises.
Qed.

Lemma Strip_testbit ptr bottom_pac_bit tbi ret i :
  Strip ptr bottom_pac_bit tbi = Some ret ->
  Z.testbit ret i =
    if in_field bottom_pac_bit tbi i then Z.testbit ptr 55 else Z.testbit ptr i.
Proof.
  intros E. apply Strip_Some in E. destruct E as (mask & Em & ->).
  apply PACMask_Some in Em. destruct Em as [Hb Hm].
  destruct (Z.ltb_spec i 0) as [Hi|Hi].
  - rewrite in_field_neg, !Z.testbit_neg_r by lia. reflexivity.
  - destruct (Z.testbit ptr 55);
      rewrite ?Z.lor_spec, ?Z.land_spec, ?Z.lnot_spec, ?Hm by assumption;
      destruct (in_field bottom_pac_bit tbi i), (Z.testbit ptr i); reflexivity.
Qed.

(** [Strip] only reads the bits outside the PAC field. *)
Lemma Strip_ext ptr ptr' bottom_pac_bit tbi :
  (forall i, in_field bottom_pac_bit tbi i = false -> Z.testbit ptr i = Z.testbit ptr' i) ->
  Strip ptr bottom_pac_bit tbi = Strip ptr' bottom_pac_bit tbi.
Proof.
  intros H.
  destruct (Strip ptr bottom_pac_bit tbi) as [r|] eqn:E,
           (Strip ptr' bottom_pac_bit tbi) as [r'|] eqn:E'.
  - f_equal. bitwise i.
    rewrite (Strip_testbit _ _ _ _ i E), (Strip_testbit _ _ _ _ i E').
    rewrite (H 55) by apply in_field_55.
    destruct (in_field bottom_pac_bit tbi i) eqn:F; [reflexivity | now apply H].
  - apply Strip_Some in E. destruct E as (mask & Em & _).
    unfold Strip in E'. rewrite Em in E'. discriminate.
  - apply Strip_Some in E'. destruct E' as (mask & Em & _).
    unfold Strip in E. rewrite Em in E. discriminate.
  - reflexivity.
Qed.

End StripFacts.

Section SignAuthFacts.
Import Prince FeatPAuth.

Lemma In_bit_positions lo hi i : In i (bit_positions lo hi) <-> lo <= i <= hi.
Proof.
  unfold bit_positions. rewrite in_map_iff. split.
  - intros (k & <- & Hk). apply in_seq in Hk. lia.
  - intros H. exists (Z.to_nat (i - lo)). split; [lia|]. apply in_seq. lia.
Qed.

Lemma canonical_spec ptr bottom_pac_bit tbi :
  canonical ptr bottom_pac_bit tbi = true <->
  forall i, bottom_pac_bit <= i <= top_bit tbi ->
            Z.testbit ptr i = Z.testbit ptr (top_bit tbi).
Proof.
  unfold canonical. rewrite forallb_forall. split.
  - intros H i Hi. apply Bool.eqb_prop, H, In_bit_positions, Hi.
  - intros H i Hi. apply In_bit_positions in Hi. rewrite (H i Hi). apply Bool.eqb_reflx.
Qed.

(** The test [extension_bits not in (0, extension_mask)] of [AddPAC] decides
    exactly whether the pointer is canonical. *)
Lemma poisoned_test ptr bottom_pac_bit tbi extension_mask :
  0 <= bottom_pac_bit <= 55 ->
  _BitMask bottom_pac_bit (top_bit tbi) = Some extension_mask ->
  (Z.land ptr extension_mask =? 0) || (Z.land ptr extension_mask =? extension_mask)
  = canonical ptr bottom_pac_bit tbi.
Proof.
  intros Hb E.
  assert (Htop : bottom_pac_bit <= top_bit tbi <= 63) by (destruct tbi; cbn; lia).
  assert (Hm : forall i, Z.testbit extension_mask i
                         = (bottom_pac_bit <=? i) && (i <=? top_bit tbi))
    by (intros i; apply BitMask_testbit, E).
  assert (Hin : forall i, bottom_pac_bit <= i <= top_bit tbi ->
                          Z.testbit extension_mask i = true).
  { intros i Hi. rewrite Hm.
    destruct (Z.leb_spec bottom_pac_bit i), (Z.leb_spec i (top_bit tbi)); trivial; lia. }
  assert (Hout : forall i, ~ bottom_pac_bit <= i <= top_bit tbi ->
                           Z.testbit extension_mask i = false).
  { intros i Hi. rewrite Hm.
    destruct (Z.leb_spec bottom_pac_bit i), (Z.leb_spec i (top_bit tbi)); trivial; lia. }
  apply Bool.eq_true_iff_eq. rewrite orb_true_iff, canonical_spec, !Z.eqb_eq. split.
  - intros [H|H] i Hi.
    + assert (F : forall j, bottom_pac_bit <= j <= top_bit tbi -> Z.testbit ptr j = false).
      { intros j Hj. apply (f_equal (fun z => Z.testbit z j)) in H.
        rewrite Z.land_spec, Hin, andb_true_r, Z.bits_0 in H; assumption. }
      rewrite !F; trivial; lia.
    + assert (F : forall j, bottom_pac_bit <= j <= top_bit tbi -> Z.testbit ptr j = true).
      { intros j Hj. apply (f_equal (fun z => Z.testbit z j)) in H.
        rewrite Z.land_spec, Hin, andb_true_r in H; assumption. }
      rewrite !F; trivial; lia.
  - intros H. destruct (Z.testbit ptr (top_bit tbi)) eqn:T; [right | left].
    + bitwise i.
      destruct (Z.testbit extension_mask i) eqn:M; [|apply andb_false_r].
      rewrite H; [reflexivity|].
      destruct (Z.leb_spec bottom_pac_bit i), (Z.leb_spec i (top_bit tbi));
        try lia; rewrite Hout in M by lia; discriminate.
    + bitwise i. rewrite Z.bits_0.
      destruct (Z.testbit extension_mask i) eqn:M; [|apply andb_false_r].
      rewrite H; [reflexivity|].
      destruct (Z.leb_spec bottom_pac_bit i), (Z.leb_spec i (top_bit tbi));
        try lia; rewrite Hout in M by lia; discriminate.
Qed.

(** [AddPAC], once its two masks and the stripped pointer are known. *)
Lemma AddPAC_eq ptr k_hi k_lo modifier bottom_pac_bit tbi ehp ehp2 original_ptr pac_mask :
  Strip ptr bottom_pac_bit tbi = Some original_ptr ->
  _PACMask bottom_pac_bit tbi = Some pac_mask ->
  AddPAC ptr k_hi k_lo modifier bottom_pac_bit tbi ehp ehp2 =
  Some (let input_is_poisoned := negb (canonical ptr bottom_pac_bit tbi) in
        let pac :=
          if input_is_poisoned && ehp then 0
          else
            let pac := modified_prince original_ptr k_hi k_lo modifier in
            if input_is_poisoned && negb ehp2
            then Z.lxor pac (Z.shiftl 1 (top_bit tbi - 1))
            else pac in
        if ehp2 then Z.lxor ptr (Z.land pac pac_mask)
        else Z.lor (Z.land ptr (Z.lnot pac_mask)) (Z.land pac pac_mask)).
Proof.
  intros ES EM. pose proof (PACMask_Some _ _ _ EM) as [Hb _].
  unfold AddPAC. rewrite ES. cbn [bind].
  fold (top_bit tbi).
  rewrite (BitMask_defined bottom_pac_bit (top_bit tbi)) by (destruct tbi; cbn; lia).
  cbn [bind].
  rewrite (poisoned_test ptr bottom_pac_bit tbi)
    by (trivial; apply BitMask_defined; destruct tbi; cbn; lia).
  rewrite EM. reflexivity.
Qed.

(** [Auth], once the mask and the stripped pointer are known. *)
Lemma Auth_eq ptr k_hi k_lo b_key modifier bottom_pac_bit tbi ehp2 original_ptr pac_mask :
  Strip ptr bottom_pac_bit tbi = Some original_ptr ->
  _PACMask bottom_pac_bit tbi = Some pac_mask ->
  Auth ptr k_hi k_lo b_key modifier bottom_pac_bit tbi ehp2 =
  Some (let pac := modified_prince original_ptr k_hi k_lo modifier in
        if ehp2 then Z.lxor ptr (Z.land pac pac_mask)
        else if negb (Z.land ptr pac_mask =? Z.land pac pac_mask)
             then Z.lor (Z.land original_ptr (Z.lnot (Z.shiftl 3 (error_code_shift tbi))))
                        (Z.shiftl (error_code b_key) (error_code_shift tbi))
             else original_ptr).
Proof.
  intros ES EM. unfold Auth. rewrite ES. cbn [bind]. rewrite EM. cbn [bind].
  destruct ehp2; reflexivity.
Qed.

(** Writing [pac] into the PAC field, either way, leaves every other bit. *)
Lemma insert_pac_outside ptr pac pac_mask bottom_pac_bit tbi (ehp2 : bool) i :
  (forall j, Z.testbit pac_mask j = in_field bottom_pac_bit tbi j) ->
  in_field bottom_pac_bit tbi i = false ->
  Z.testbit (if ehp2 then Z.lxor ptr (Z.land pac pac_mask)
             else Z.lor (Z.land ptr (Z.lnot pac_mask)) (Z.land pac pac_mask)) i
  = Z.testbit ptr i.
Proof.
  intros Hm Hi.
  destruct (Z.ltb_spec i 0) as [Hneg|Hnn]; [now rewrite !Z.testbit_neg_r|].
  destruct ehp2;
    rewrite ?Z.lxor_spec, ?Z.lor_spec, ?Z.land_spec, ?Z.lnot_spec, ?Hm, ?Hi by assumption;
    destruct (Z.testbit ptr i), (Z.testbit pac i); reflexivity.
Qed.

Lemma write_error_field x sh code :
  0 <= sh -> 0 <= code < 4 ->
  Z.land (Z.shiftr (Z.lor (Z.land x (Z.lnot (Z.shiftl 3 sh))) (Z.shiftl code sh)) sh) 3
  = code.
Proof.
  intros Hsh Hc. bitwise i.
  rewrite Z.shiftr_spec, Z.lor_spec, Z.land_spec, Z.lnot_spec, !Z.shiftl_spec by lia.
  replace (i + sh - sh) with i by lia.
  destruct (Z.ltb_spec i 2) as [Hi|Hi].
  - assert (Z.testbit 3 i = true) as -> by (assert (i = 0 \/ i = 1) as [-> | ->] by lia; reflexivity).
    destruct (Z.testbit x (i + sh)), (Z.testbit code i); reflexivity.
  - assert (F : forall c, 0 <= c < 4 -> Z.testbit c i = false).
    { intros c Hcc. destruct (Z.eq_dec c 0) as [->|]; [apply Z.bits_0|].
      apply Z.bits_above_log2; [lia|].
      apply Z.lt_le_trans with 2; [|assumption]. apply Z.log2_lt_pow2; lia. }
    rewrite (F 3), (F code) by lia. apply andb_false_r.
Qed.

Lemma write_error_other x sh code i :
  0 <= sh -> 0 <= code < 4 -> i <> sh -> i <> sh + 1 ->
  Z.testbit (Z.lor (Z.land x (Z.lnot (Z.shiftl 3 sh))) (Z.shiftl code sh)) i
  = Z.testbit x i.
Proof.
  intros Hsh Hc H0 H1.
  destruct (Z.ltb_spec i 0) as [Hneg|Hnn]; [now rewrite !Z.testbit_neg_r|].
  rewrite Z.lor_spec, Z.land_spec, Z.lnot_spec, !Z.shiftl_spec by lia.
  assert (F : forall c, 0 <= c < 4 -> Z.testbit c (i - sh) = false).
  { intros c Hcc. destruct (Z.ltb_spec (i - sh) 0); [now apply Z.testbit_neg_r|].
    destruct (Z.eq_dec c 0) as [->|]; [apply Z.bits_0|].
    apply Z.bits_above_log2; [lia|].
    apply Z.lt_le_trans with 2; [|lia]. apply Z.log2_lt_pow2; lia. }
  rewrite !F by lia. cbn. now rewrite andb_true_r, orb_false_r.
Qed.

End SignAuthFacts.

Section PointerAuthentication.
Import Prince FeatPAuth.

Lemma Strip_canonical ptr bottom_pac_bit tbi original_ptr :
  canonical ptr bottom_pac_bit tbi = true ->
  Strip ptr bottom_pac_bit tbi = Some original_ptr ->
  original_ptr = ptr.
Proof.
  intros Hc ES. pose proof (proj1 (canonical_spec _ _ _) Hc) as Hbits.
  pose proof (Strip_Some _ _ _ _ ES) as (mask & EM & _).
  pose proof (PACMask_Some _ _ _ EM) as [Hb _].
  bitwise i. rewrite (Strip_testbit _ _ _ _ i ES).
  destruct (in_field bottom_pac_bit tbi i) eqn:F; [|reflexivity].
  assert (Hi : bottom_pac_bit <= i <= top_bit tbi).
  { unfold in_field in F. destruct tbi; cbn in F |- *.
    - rewrite orb_false_r in F. apply andb_true_iff in F. lia.
    - apply orb_true_iff in F. rewrite !andb_true_iff in F. lia. }
  rewrite (Hbits i Hi). apply Hbits. destruct tbi; cbn; lia.
Qed.

Lemma Strip_after_insert ptr pac pac_mask bottom_pac_bit tbi (ehp2 : bool) :
  _PACMask bottom_pac_bit tbi = Some pac_mask ->
  Strip (if ehp2 then Z.lxor ptr (Z.land pac pac_mask)
         else Z.lor (Z.land ptr (Z.lnot pac_mask)) (Z.land pac pac_mask))
        bottom_pac_bit tbi
  = Strip ptr bottom_pac_bit tbi.
Proof.
  intros EM. apply PACMask_Some in EM. destruct EM as [_ Hm].
  apply Strip_ext. intros i Hi. now apply insert_pac_outside with bottom_pac_bit tbi.
Qed.

Lemma overwritten_field ptr pac pac_mask :
  Z.land (Z.lor (Z.land ptr (Z.lnot pac_mask)) (Z.land pac pac_mask)) pac_mask
  = Z.land pac pac_mask.
Proof.
  bitwise i.
  destruct (Z.testbit ptr i), (Z.testbit pac i), (Z.testbit pac_mask i); reflexivity.
Qed.

(** C1: signing a canonical pointer and authenticating the result with the same
    key, modifier and field parameters gives back the stripped pointer, for
    every combination of the EnhancedPAC flags. *)
Theorem sign_auth_round_trip ptr k_hi k_lo modifier bottom_pac_bit tbi ehp ehp2 :
  0 <= ptr < 2 ^ 64 ->
  0 <= bottom_pac_bit <= 55 ->
  canonical ptr bottom_pac_bit tbi = true ->
  exists signed stripped,
    AddPAC ptr k_hi k_lo modifier bottom_pac_bit tbi ehp ehp2 = Some signed /\
    Strip ptr bottom_pac_bit tbi = Some stripped /\
    Auth signed k_hi k_lo false modifier bottom_pac_bit tbi ehp2 = Some stripped.
Proof.
  intros _ Hb Hc.
  destruct (Strip_defined ptr bottom_pac_bit tbi Hb) as [orig ES].
  destruct (PACMask_defined bottom_pac_bit tbi Hb) as [mask EM].
  rewrite (AddPAC_eq _ k_hi k_lo modifier _ _ ehp ehp2 _ _ ES EM).
  rewrite Hc. cbn [negb andb]. cbv zeta.
  eexists; exists orig. split; [reflexivity|]. split; [assumption|].
  erewrite Auth_eq; [| rewrite Strip_after_insert by eassumption; eassumption | eassumption].
  f_equal. cbv zeta. destruct ehp2.
  - rewrite Z.lxor_assoc, Z.lxor_nilpotent, Z.lxor_0_r.
    symmetry. now apply Strip_canonical with bottom_pac_bit tbi.
  - rewrite overwritten_field, Z.eqb_refl. reflexivity.
Qed.

Lemma sign_auth_round_trip_witness :
  exists signed stripped,
    AddPAC 0xffffff8012345678 1 2 3 39 false false false = Some signed /\
    Strip 0xffffff8012345678 39 false = Some stripped /\
    Auth signed 1 2 false 3 39 false false = Some stripped.
Proof.
  apply (sign_auth_round_trip 0xffffff8012345678 1 2 3 39 false false false).
  - lia.
  - lia.
  - vm_compute. reflexivity.
Defined.

(** C8 (amended): for a field that starts at bit 0..55, stripping a stripped
    pointer returns it unchanged. *)
Theorem Strip_idempotent ptr bottom_pac_bit tbi :
  0 <= ptr < 2 ^ 64 ->
  0 <= bottom_pac_bit <= 55 ->
  exists stripped,
    Strip ptr bottom_pac_bit tbi = Some stripped /\
    Strip stripped bottom_pac_bit tbi = Some stripped.
Proof.
  intros _ Hb.
  destruct (Strip_defined ptr bottom_pac_bit tbi Hb) as [r ES].
  destruct (Strip_defined r bottom_pac_bit tbi Hb) as [r' ES'].
  exists r. split; [assumption|]. rewrite ES'. f_equal.
  bitwise i.
  rewrite (Strip_testbit _ _ _ _ i ES'), (Strip_testbit _ _ _ _ 55 ES),
          (Strip_testbit _ _ _ _ i ES), in_field_55.
  destruct (in_field bottom_pac_bit tbi i); reflexivity.
Qed.

Lemma Strip_idempotent_witness :
  exists stripped,
    Strip 0x0012345678abcdef 39 true = Some stripped /\
    Strip stripped 39 true = Some stripped.
Proof.
  apply (Strip_idempotent 0x0012345678abcdef 39 true); lia.
Defined.

(** C8 as stated fails above bit 55: there [Strip] raises instead of
    returning a pointer. *)
Lemma Strip_raises_at_63 :
  Strip 0 63 false = None /\
  ~ (exists stripped, Strip 0 63 false = Some stripped /\
                      Strip stripped 63 false = Some stripped).
Proof.
  split; [reflexivity|]. intros (r & E & _). discriminate E.
Qed.

(** C9: with EnhancedPAC2, [Auth] applied twice with the same arguments gives
    back the pointer it started from. *)
Theorem Auth_enhanced_pac2_involution ptr k_hi k_lo b_key modifier bottom_pac_bit tbi :
  0 <= ptr < 2 ^ 64 ->
  0 <= bottom_pac_bit <= 55 ->
  exists once,
    Auth ptr k_hi k_lo b_key modifier bottom_pac_bit tbi true = Some once /\
    Auth once k_hi k_lo b_key modifier bottom_pac_bit tbi true = Some ptr.
Proof.
  intros _ Hb.
  destruct (Strip_defined ptr bottom_pac_bit tbi Hb) as [orig ES].
  destruct (PACMask_defined bottom_pac_bit tbi Hb) as [mask EM].
  rewrite (Auth_eq _ k_hi k_lo b_key modifier _ _ true _ _ ES EM). cbv zeta.
  eexists. split; [reflexivity|].
  erewrite Auth_eq;
    [| rewrite (Strip_after_insert ptr _ mask bottom_pac_bit tbi true) by assumption;
       eassumption
     | eassumption].
  cbv zeta. now rewrite Z.lxor_assoc, Z.lxor_nilpotent, Z.lxor_0_r.
Qed.

Lemma Auth_enhanced_pac2_involution_witness :
  exists once,
    Auth 0x0012345678abcdef 7 9 true 5 39 false true = Some once /\
    Auth once 7 9 true 5 39 false true = Some 0x0012345678abcdef.
Proof.
  apply (Auth_enhanced_pac2_involution 0x0012345678abcdef 7 9 true 5 39 false); lia.
Defined.

(** C10: [AddPAC] and [Strip] leave every bit outside the PAC mask as it was;
    in particular the address bits below [bottom_pac_bit] and bit 55. *)
Theorem AddPAC_Strip_frame ptr k_hi k_lo modifier bottom_pac_bit tbi ehp ehp2 :
  0 <= ptr < 2 ^ 64 ->
  0 <= bottom_pac_bit <= 55 ->
  exists pac_mask signed stripped,
    _PACMask bottom_pac_bit tbi = Some pac_mask /\
    AddPAC ptr k_hi k_lo modifier bottom_pac_bit tbi ehp ehp2 = Some signed /\
    Strip ptr bottom_pac_bit tbi = Some stripped /\
    Z.land signed (Z.lnot pac_mask) = Z.land ptr (Z.lnot pac_mask) /\
    Z.land stripped (Z.lnot pac_mask) = Z.land ptr (Z.lnot pac_mask) /\
    (forall i, Z.testbit pac_mask i = false ->
               Z.testbit signed i = Z.testbit ptr i /\
               Z.testbit stripped i = Z.testbit ptr i) /\
    (forall i, i < bottom_pac_bit \/ i = 55 ->
               Z.testbit pac_mask i = false /\
               Z.testbit signed i = Z.testbit ptr i /\
               Z.testbit stripped i = Z.testbit ptr i).
Proof.
  intros _ Hb.
  destruct (Strip_defined ptr bottom_pac_bit tbi Hb) as [orig ES].
  destruct (PACMask_defined bottom_pac_bit tbi Hb) as [mask EM].
  pose proof (PACMask_Some _ _ _ EM) as [_ Hm].
  rewrite (AddPAC_eq _ k_hi k_lo modifier _ _ ehp ehp2 _ _ ES EM).
  cbv zeta.
  set (pac := if negb (canonical ptr bottom_pac_bit tbi) && ehp then 0 else _).
  exists mask. eexists. exists orig.
  split; [assumption|]. split; [reflexivity|]. split; [assumption|].
  assert (Hout : forall i, Z.testbit mask i = false ->
    Z.testbit (if ehp2 then Z.lxor ptr (Z.land pac mask)
               else Z.lor (Z.land ptr (Z.lnot mask)) (Z.land pac mask)) i
      = Z.testbit ptr i /\
    Z.testbit orig i = Z.testbit ptr i).
  { intros i Hi. rewrite Hm in Hi. split.
    - now apply insert_pac_outside with bottom_pac_bit tbi.
    - now rewrite (Strip_testbit _ _ _ _ i ES), Hi. }
  split; [|split; [|split]].
  - bitwise i. destruct (Z.testbit mask i) eqn:M.
    + now rewrite !andb_false_r.
    + now rewrite (proj1 (Hout i M)).
  - bitwise i. destruct (Z.testbit mask i) eqn:M.
    + now rewrite !andb_false_r.
    + now rewrite (proj2 (Hout i M)).
  - assumption.
  - intros i Hi.
    assert (M : Z.testbit mask i = false).
    { rewrite Hm. destruct Hi as [Hi | ->]; [|apply in_field_55].
      unfold in_field.
      destruct (Z.leb_spec bottom_pac_bit i); [lia|].
      destruct (Z.leb_spec 56 i); [lia|]. cbn. apply andb_false_r. }
    split; [assumption | now apply Hout].
Qed.

Lemma AddPAC_Strip_frame_witness :
  exists pac_mask signed stripped,
    _PACMask 39 false = Some pac_mask /\
    AddPAC 0x0012345678abcdef 7 9 5 39 false false true = Some signed /\
    Strip 0x0012345678abcdef 39 false = Some stripped /\
    Z.land signed (Z.lnot pac_mask) = Z.land 0x0012345678abcdef (Z.lnot pac_mask) /\
    Z.land stripped (Z.lnot pac_mask) = Z.land 0x0012345678abcdef (Z.lnot pac_mask) /\
    (forall i, Z.testbit pac_mask i = false ->
               Z.testbit signed i = Z.testbit 0x0012345678abcdef i /\
               Z.testbit stripped i = Z.testbit 0x0012345678abcdef i) /\
    (forall i, i < 39 \/ i = 55 ->
               Z.testbit pac_mask i = false /\
               Z.testbit signed i = Z.testbit 0x0012345678abcdef i /\
               Z.testbit stripped i = Z.testbit 0x0012345678abcdef i).
Proof.
  apply (AddPAC_Strip_frame 0x0012345678abcdef 7 9 5 39 false false true); lia.
Defined.

(** C4 (amended): for [bottom_pac_bit] in 0..55 the PAC mask is computed without
    raising, it is a 64-bit word, and it has exactly the bits
    [bottom_pac_bit .. 54] plus, when [tbi] is false, the bits [56 .. 63]; at
    55 the field below bit 55 is empty and at 0 it is maximal.  For
    [bottom_pac_bit] in 56..63 the computation raises (a negative shift
    count) for either [tbi]. *)
Theorem PACMask_total bottom_pac_bit tbi :
  0 <= bottom_pac_bit <= 63 ->
  (bottom_pac_bit <= 55 ->
   exists pac_mask,
     _PACMask bottom_pac_bit tbi = Some pac_mask /\
     0 <= pac_mask < 2 ^ 64 /\
     (forall i, Z.testbit pac_mask i = in_field bottom_pac_bit tbi i) /\
     (bottom_pac_bit = 55 -> pac_mask = if tbi then 0 else 0xff00000000000000) /\
     (bottom_pac_bit = 0 ->
      pac_mask = if tbi then 0x007fffffffffffff else 0xff7fffffffffffff)) /\
  (56 <= bottom_pac_bit -> _PACMask bottom_pac_bit tbi = None).
Proof.
  intros Hr. split.
  - intros Hle. assert (Hb : 0 <= bottom_pac_bit <= 55) by lia.
    destruct (PACMask_defined bottom_pac_bit tbi Hb) as [mask EM].
    exists mask. split; [assumption|].
    split; [now apply PACMask_range with bottom_pac_bit tbi|].
    split; [now apply PACMask_Some|].
    split; intros ->; destruct tbi; vm_compute in EM; congruence.
  - intros Hge. apply PACMask_raises. lia.
Qed.

Lemma PACMask_total_witness :
  (exists pac_mask,
     _PACMask 39 false = Some pac_mask /\
     0 <= pac_mask < 2 ^ 64 /\
     (forall i, Z.testbit pac_mask i = in_field 39 false i) /\
     (39 = 55 -> pac_mask = if false then 0 else 0xff00000000000000) /\
     (39 = 0 -> pac_mask = if false then 0x007fffffffffffff else 0xff7fffffffffffff)) /\
  _PACMask 56 true = None /\
  _PACMask 60 false = None.
Proof.
  split; [|split].
  - apply (proj1 (PACMask_total 39 false ltac:(lia))). lia.
  - apply (proj2 (PACMask_total 56 true ltac:(lia))). lia.
  - apply (proj2 (PACMask_total 60 false ltac:(lia))). lia.
Defined.

(** C4 as stated fails on 56..63: the mask computation raises there (a
    negative shift count), so there is no mask at [bottom_pac_bit = 63]. *)
Lemma PACMask_raises_at_63 :
  _PACMask 63 true = None /\ _PACMask 63 false = None /\
  ~ (forall bottom_pac_bit tbi, 0 <= bottom_pac_bit <= 63 ->
       exists pac_mask, _PACMask bottom_pac_bit tbi = Some pac_mask).
Proof.
  split; [reflexivity|]. split; [reflexivity|].
  intros H. destruct (H 63 true ltac:(lia)) as [mask E]. discriminate E.
Qed.

(** C2 (amended): when authentication fails without EnhancedPAC2, [Auth] returns
    the stripped pointer with the error code (1 for an A key, 2 for a B key)
    written into bits 54..53 when [tbi] is true and bits 62..61 when it is
    false; every other bit is the stripped pointer's. *)
Theorem Auth_failure_code ptr k_hi k_lo b_key modifier bottom_pac_bit tbi
    original_ptr pac_mask :
  Strip ptr bottom_pac_bit tbi = Some original_ptr ->
  _PACMask bottom_pac_bit tbi = Some pac_mask ->
  Z.land ptr pac_mask
    <> Z.land (modified_prince original_ptr k_hi k_lo modifier) pac_mask ->
  exists ret,
    Auth ptr k_hi k_lo b_key modifier bottom_pac_bit tbi false = Some ret /\
    ret = write_code original_ptr (if tbi then 53 else 61) (if b_key then 2 else 1) /\
    Z.land (Z.shiftr ret (if tbi then 53 else 61)) 3 = (if b_key then 2 else 1) /\
    (forall i, i <> (if tbi then 53 else 61) -> i <> (if tbi then 54 else 62) ->
               Z.testbit ret i = Z.testbit original_ptr i).
Proof.
  intros ES EM Hne.
  rewrite (Auth_eq _ k_hi k_lo b_key modifier _ _ false _ _ ES EM). cbv zeta.
  apply Z.eqb_neq in Hne. rewrite Hne. cbn [negb].
  eexists. split; [reflexivity|].
  fold (write_code original_ptr (error_code_shift tbi) (error_code b_key)).
  split; [reflexivity|]. unfold write_code. split.
  - apply write_error_field; destruct tbi, b_key; cbn; lia.
  - intros i H0 H1. apply write_error_other; destruct tbi, b_key; cbn; lia.
Qed.

Lemma Auth_failure_code_witness :
  exists ret,
    Auth 0 0 0 true 0 39 true false = Some ret /\
    ret = write_code 0 53 2 /\
    Z.land (Z.shiftr ret 53) 3 = 2 /\
    (forall i, i <> 53 -> i <> 54 -> Z.testbit ret i = Z.testbit 0 i).
Proof.
  apply (Auth_failure_code 0 0 0 true 0 39 true 0 0x007fff8000000000).
  - reflexivity.
  - reflexivity.
  - vm_compute. discriminate.
Defined.

(** C2 as stated fails: on a failed authentication of the null pointer with an
    A key and [tbi] false, the code lands in bits 62..61, not in bits 61..60. *)
Lemma Auth_failure_code_not_at_60 :
  Z.land 0 0xff7fff8000000000
    <> Z.land (modified_prince 0 0 0 0) 0xff7fff8000000000 /\
  Strip 0 39 false = Some 0 /\
  _PACMask 39 false = Some 0xff7fff8000000000 /\
  Auth 0 0 0 false 0 39 false false = Some (write_code 0 61 1) /\
  Auth 0 0 0 false 0 39 false false <> Some (write_code 0 60 1) /\
  (forall ret, Auth 0 0 0 false 0 39 false false = Some ret ->
               Z.land (Z.shiftr ret 60) 3 <> 1).
Proof.
  split; [vm_compute; discriminate|].
  split; [reflexivity|]. split; [reflexivity|].
  split; [vm_compute; reflexivity|].
  split; [vm_compute; discriminate|].
  intros ret E. vm_compute in E. inversion E. vm_compute. discriminate.
Qed.

(** A poisoned pointer leaves room for the corrupted bit [top_bit - 1] in the
    PAC field. *)
Lemma poisoned_flip_in_field ptr bottom_pac_bit tbi :
  0 <= bottom_pac_bit <= 55 ->
  canonical ptr bottom_pac_bit tbi = false ->
  in_field bottom_pac_bit tbi (top_bit tbi - 1) = true.
Proof.
  intros Hb Hc. unfold in_field. destruct tbi; [|cbn; apply orb_true_r].
  cbn. rewrite orb_false_r, andb_true_r. apply Z.leb_le.
  destruct (Z.eq_dec bottom_pac_bit 55) as [->|]; [|lia].
  assert (canonical ptr 55 true = true); [|congruence].
  apply canonical_spec. cbn. intros i Hi. now replace i with 55 by lia.
Qed.

(** C7 (amended): signing a poisoned pointer and authenticating the result
    without EnhancedPAC2 leaves the key's error code, which is not 0, in the
    error-code field (bits 54..53 when [tbi], bits 62..61 otherwise): always
    without EnhancedPAC, and with EnhancedPAC whenever the code recomputed by
    [Auth] has a nonzero bit in the PAC field. *)
Theorem poisoned_pointer_detected ptr k_hi k_lo b_key modifier bottom_pac_bit tbi ehp :
  0 <= ptr < 2 ^ 64 ->
  0 <= bottom_pac_bit <= 55 ->
  canonical ptr bottom_pac_bit tbi = false ->
  (ehp = true ->
   forall original_ptr pac_mask,
     Strip ptr bottom_pac_bit tbi = Some original_ptr ->
     _PACMask bottom_pac_bit tbi = Some pac_mask ->
     Z.land (modified_prince original_ptr k_hi k_lo modifier) pac_mask <> 0) ->
  exists signed ret,
    AddPAC ptr k_hi k_lo modifier bottom_pac_bit tbi ehp false = Some signed /\
    Auth signed k_hi k_lo b_key modifier bottom_pac_bit tbi false = Some ret /\
    error_field tbi ret = error_code b_key /\
    error_field tbi ret <> 0.
Proof.
  intros _ Hb Hc Hehp.
  destruct (Strip_defined ptr bottom_pac_bit tbi Hb) as [orig ES].
  destruct (PACMask_defined bottom_pac_bit tbi Hb) as [mask EM].
  pose proof (PACMask_Some _ _ _ EM) as [_ Hm].
  rewrite (AddPAC_eq _ k_hi k_lo modifier _ _ ehp false _ _ ES EM).
  rewrite Hc. cbn [negb andb]. cbv zeta.
  set (pac := if ehp then 0 else _).
  assert (Hne : Z.land pac mask
                <> Z.land (modified_prince orig k_hi k_lo modifier) mask).
  { subst pac. destruct ehp.
    - rewrite Z.land_0_l. intros F. now apply (Hehp eq_refl orig mask ES EM).
    - intros F. apply (f_equal (fun z => Z.testbit z (top_bit tbi - 1))) in F.
      rewrite !Z.land_spec, Z.lxor_spec, Hm, (poisoned_flip_in_field ptr _ _ Hb Hc) in F.
      rewrite Z.shiftl_1_l, Z.pow2_bits_true, !andb_true_r in F by (destruct tbi; cbn; lia).
      destruct (Z.testbit (modified_prince orig k_hi k_lo modifier) (top_bit tbi - 1));
        discriminate F. }
  eexists. eexists. split; [reflexivity|].
  erewrite Auth_eq;
    [| rewrite (Strip_after_insert ptr pac mask bottom_pac_bit tbi false) by assumption;
       eassumption
     | eassumption].
  cbv zeta. rewrite overwritten_field.
  apply Z.eqb_neq in Hne. rewrite Hne. cbn [negb].
  split; [reflexivity|].
  assert (E : error_field tbi
                (Z.lor (Z.land orig (Z.lnot (Z.shiftl 3 (error_code_shift tbi))))
                       (Z.shiftl (error_code b_key) (error_code_shift tbi)))
              = error_code b_key).
  { unfold error_field. apply write_error_field; destruct tbi, b_key; cbn; lia. }
  split; [exact E|]. rewrite E. destruct b_key; discriminate.
Qed.

Lemma poisoned_pointer_detected_witness :
  exists signed ret,
    AddPAC 0x0040000000000000 0 0 0 54 true true false = Some signed /\
    Auth signed 0 0 false 0 54 true false = Some ret /\
    error_field true ret = error_code false /\
    error_field true ret <> 0.
Proof.
  apply (poisoned_pointer_detected 0x0040000000000000 0 0 false 0 54 true true).
  - lia.
  - lia.
  - vm_compute. reflexivity.
  - intros _ original_ptr pac_mask ES EM.
    vm_compute in ES. vm_compute in EM.
    inversion ES. inversion EM. vm_compute. discriminate.
Defined.

(** C7 as stated fails with EnhancedPAC: a poisoned pointer is signed with a
    zero code, and when the code that [Auth] recomputes is zero on the PAC
    field too, [Auth] accepts it and returns the stripped pointer, whose
    error-code bits are all zero.  This happens for the pointer
    [2^54 + 0x12345678] with the field 39..54 ([tbi] true), the zero key and
    the modifier 97117, and for the pointer [2^54] with the one-bit field
    54..54 and the modifier 3. *)
Lemma poisoned_pointer_accepted :
  (canonical 0x0040000012345678 39 true = false /\
   AddPAC 0x0040000012345678 0 0 97117 39 true true false = Some 0x12345678 /\
   Auth 0x12345678 0 0 false 97117 39 true false = Some 0x12345678 /\
   Auth 0x12345678 0 0 true 97117 39 true false = Some 0x12345678 /\
   error_field true 0x12345678 = 0) /\
  (canonical 0x0040000000000000 54 true = false /\
   AddPAC 0x0040000000000000 0 0 3 54 true true false = Some 0 /\
   Auth 0 0 0 false 3 54 true false = Some 0 /\
   Auth 0 0 0 true 3 54 true false = Some 0 /\
   error_field true 0 = 0).
Proof.
  repeat split; vm_compute; reflexivity.
Qed.

End PointerAuthentication.



(** * Properties of the cipher *)

Section Nybbles.
Import Prince.

Lemma small_high_bits c w i : 0 <= c < 2 ^ w -> w <= i -> Z.testbit c i = false.
Proof.
  intros Hc Hi.
  destruct (Z.ltb_spec w 0) as [Hw|Hw]; [rewrite Z.pow_neg_r in Hc; lia|].
  destruct (Z.eq_dec c 0) as [->|]; [apply Z.bits_0|].
  apply Z.bits_above_log2; [lia|].
  apply Z.lt_le_trans with w; [|assumption]. apply Z.log2_lt_pow2; lia.
Qed.

Lemma testbit_15 i : 0 <= i -> Z.testbit 15 i = (i <? 4).
Proof. intros Hi. change 15 with (Z.ones 4). apply Z.testbit_ones_nonneg; lia. Qed.

Lemma nyb_testbit j x i :
  0 <= j -> 0 <= i -> Z.testbit (nyb j x) i = Z.testbit x (i + j) && (i <? 4).
Proof.
  intros Hj Hi. unfold nyb.
  now rewrite Z.land_spec, Z.shiftr_spec, testbit_15 by assumption.
Qed.

Lemma nyb_range j x : 0 <= j -> 0 <= nyb j x < 16.
Proof.
  intros Hj. unfold nyb. change 15 with (Z.ones 4). rewrite Z.land_ones by lia.
  apply Z.mod_pos_bound. reflexivity.
Qed.

(** A nybble shifted to position [a], read back at position [b]. *)
Lemma nyb_shiftl g a b :
  0 <= g < 16 -> 0 <= a -> 0 <= b -> a mod 4 = 0 -> b mod 4 = 0 ->
  nyb b (Z.shiftl g a) = if a =? b then g else 0.
Proof.
  intros Hg Ha Hb Ma Mb. apply Z.bits_inj'. intros i Hi.
  rewrite nyb_testbit, Z.shiftl_spec by lia.
  destruct (Z.eqb_spec a b) as [->|Hne].
  - replace (i + b - b) with i by lia.
    destruct (Z.ltb_spec i 4); [apply andb_true_r|].
    rewrite andb_false_r. symmetry. apply small_high_bits with 4; lia.
  - rewrite Z.bits_0. destruct (Z.ltb_spec i 4); [|apply andb_false_r].
    rewrite andb_true_r.
    destruct (Z.ltb_spec (i + b - a) 0); [now apply Z.testbit_neg_r|].
    apply small_high_bits with 4; [lia|].
    assert (a <> b + 0) by lia. Z.div_mod_to_equations. lia.
Qed.

(** Reading a nybble from a word assembled by OR-ing shifted nybbles, which
    is how [s], [s_inv], [sr] and [sr_inv] build their result. *)
Lemma nyb_assemble (g sh : Z -> Z) j l : forall a,
  (forall i, In i l -> 0 <= g i < 16 /\ 0 <= sh i /\ sh i mod 4 = 0) ->
  0 <= j -> j mod 4 = 0 ->
  nyb j (fold_left (fun ret i => Z.lor ret (Z.shiftl (g i) (sh i))) l a)
  = fold_left (fun ret i => Z.lor ret (if sh i =? j then g i else 0)) l (nyb j a).
Proof.
  induction l as [|i l IH]; intros a Hl Hj Mj; [reflexivity|].
  cbn [fold_left]. rewrite IH by (intros; try apply Hl; try right; assumption).
  f_equal. unfold nyb at 1. rewrite Z.shiftr_lor, Z.land_lor_distr_l.
  fold (nyb j a) (nyb j (Z.shiftl (g i) (sh i))).
  destruct (Hl i (or_introl eq_refl)) as (Hg & Hs & Ms).
  now rewrite nyb_shiftl.
Qed.

Lemma assemble_high (g sh : Z -> Z) n l : forall a,
  (forall i, In i l -> 0 <= g i < 16 /\ 0 <= sh i <= 60) ->
  64 <= n -> Z.testbit a n = false ->
  Z.testbit (fold_left (fun ret i => Z.lor ret (Z.shiftl (g i) (sh i))) l a) n = false.
Proof.
  induction l as [|i l IH]; intros a Hl Hn Ha; [assumption|].
  cbn [fold_left]. apply IH; [intros; apply Hl; now right | assumption |].
  destruct (Hl i (or_introl eq_refl)) as (Hg & Hs).
  rewrite Z.lor_spec, Ha, Z.shiftl_spec by lia. cbn.
  apply small_high_bits with 4; lia.
Qed.

Lemma In_range n i : In i (range n) <-> 0 <= i < Z.of_nat n.
Proof.
  unfold range. rewrite in_map_iff. split.
  - intros (k & <- & Hk). apply in_seq in Hk. lia.
  - intros H. exists (Z.to_nat i). split; [lia|]. apply in_seq. lia.
Qed.

Lemma In_range4 n j : In j (range4 n) <-> 0 <= j < 4 * Z.of_nat n /\ j mod 4 = 0.
Proof.
  unfold range4. rewrite in_map_iff. split.
  - intros (k & <- & Hk). apply In_range in Hk.
    split; [lia|]. rewrite Z.mul_comm. apply Z.mod_mul. lia.
  - intros [H M]. exists (j / 4). split.
    + Z.div_mod_to_equations. lia.
    + apply In_range. Z.div_mod_to_equations. lia.
Qed.

(** Two 64-bit words with the same sixteen nybbles are equal. *)
Lemma nybbles_ext x y :
  0 <= x < 2 ^ 64 -> 0 <= y < 2 ^ 64 ->
  (forall j, In j (range4 16) -> nyb j x = nyb j y) -> x = y.
Proof.
  intros Hx Hy H. apply Z.bits_inj'. intros n Hn.
  destruct (Z.ltb_spec n 64) as [Hlt|Hge].
  - assert (Hj : In (4 * (n / 4)) (range4 16)).
    { apply In_range4. split; [Z.div_mod_to_equations; lia|].
      rewrite Z.mul_comm. apply Z.mod_mul. lia. }
    apply H in Hj. apply (f_equal (fun z => Z.testbit z (n mod 4))) in Hj.
    rewrite !nyb_testbit in Hj by (Z.div_mod_to_equations; lia).
    replace (n mod 4 + 4 * (n / 4)) with n in Hj by (Z.div_mod_to_equations; lia).
    destruct (Z.ltb_spec (n mod 4) 4); [|Z.div_mod_to_equations; lia].
    now rewrite !andb_true_r in Hj.
  - now rewrite !word64_high.
Qed.

Lemma pick_none (f sh : Z -> Z) j l : forall a,
  (forall i, In i l -> sh i <> j) ->
  fold_left (fun ret i => Z.lor ret (if sh i =? j then f i else 0)) l a = a.
Proof.
  induction l as [|i l IH]; intros a H; [reflexivity|].
  cbn [fold_left]. rewrite IH by (intros; apply H; now right).
  destruct (Z.eqb_spec (sh i) j) as [E|_]; [|apply Z.lor_0_r].
  now destruct (H i (or_introl eq_refl)).
Qed.

Lemma pick_one (f sh : Z -> Z) j i0 l : forall a,
  NoDup (map sh l) -> In i0 l -> sh i0 = j ->
  fold_left (fun ret i => Z.lor ret (if sh i =? j then f i else 0)) l a
  = Z.lor a (f i0).
Proof.
  induction l as [|i l IH]; intros a Hnd Hin Hsh; [contradiction|].
  cbn [fold_left map] in *. inversion Hnd as [|? ? Hni Hnd']; subst.
  destruct Hin as [->|Hin].
  - rewrite Z.eqb_refl. apply pick_none.
    intros i Hi E. apply Hni. rewrite <- E. now apply in_map.
  - rewrite IH by trivial. f_equal.
    destruct (Z.eqb_spec (sh i) (sh i0)) as [E|_]; [|apply Z.lor_0_r].
    exfalso. apply Hni. rewrite E. now apply in_map.
Qed.

Lemma forall_range (f : Z -> bool) n :
  forallb f (range n) = true -> forall i, 0 <= i < Z.of_nat n -> f i = true.
Proof.
  intros H i Hi. rewrite forallb_forall in H. apply H, In_range, Hi.
Qed.

(** The tables [S] and [SR] are permutations of 0..15, so the look-ups
    [S[n]], [S.index(n)], [SR[n]] and [SR.index(n)] stay in 0..15 and
    [index] is the inverse of the table. *)
Lemma S_getitem_range n : 0 <= n < 16 -> 0 <= getitem S n < 16.
Proof.
  intros H.
  apply (forall_range (fun n => (0 <=? getitem S n) && (getitem S n <? 16)) 16 eq_refl) in H.
  apply andb_true_iff in H. lia.
Qed.

Lemma S_index_range n : 0 <= n < 16 -> 0 <= index S n < 16.
Proof.
  intros H.
  apply (forall_range (fun n => (0 <=? index S n) && (index S n <? 16)) 16 eq_refl) in H.
  apply andb_true_iff in H. lia.
Qed.

Lemma S_index_getitem n : 0 <= n < 16 -> index S (getitem S n) = n.
Proof.
  intros H. apply Z.eqb_eq.
  exact (forall_range (fun n => index S (getitem S n) =? n) 16 eq_refl n H).
Qed.

Lemma S_getitem_index n : 0 <= n < 16 -> getitem S (index S n) = n.
Proof.
  intros H. apply Z.eqb_eq.
  exact (forall_range (fun n => getitem S (index S n) =? n) 16 eq_refl n H).
Qed.

Lemma SR_getitem_range n : 0 <= n < 16 -> 0 <= getitem SR n < 16.
Proof.
  intros H.
  apply (forall_range (fun n => (0 <=? getitem SR n) && (getitem SR n <? 16)) 16 eq_refl) in H.
  apply andb_true_iff in H. lia.
Qed.

Lemma SR_index_range n : 0 <= n < 16 -> 0 <= index SR n < 16.
Proof.
  intros H.
  apply (forall_range (fun n => (0 <=? index SR n) && (index SR n <? 16)) 16 eq_refl) in H.
  apply andb_true_iff in H. lia.
Qed.

Lemma SR_index_getitem n : 0 <= n < 16 -> index SR (getitem SR n) = n.
Proof.
  intros H. apply Z.eqb_eq.
  exact (forall_range (fun n => index SR (getitem SR n) =? n) 16 eq_refl n H).
Qed.

Lemma SR_getitem_index n : 0 <= n < 16 -> getitem SR (index SR n) = n.
Proof.
  intros H. apply Z.eqb_eq.
  exact (forall_range (fun n => getitem SR (index SR n) =? n) 16 eq_refl n H).
Qed.

Lemma NoDup_range n : NoDup (range n).
Proof.
  unfold range. apply Injective_map_NoDup; [|apply seq_NoDup].
  intros a b. apply Nat2Z.inj.
Qed.

Lemma NoDup_range4 n : NoDup (range4 n).
Proof.
  unfold range4. apply Injective_map_NoDup; [|apply NoDup_range].
  intros a b. lia.
Qed.

Lemma NoDup_nybble_slots n : NoDup (map (fun i => (15 - i) * 4) (range n)).
Proof.
  apply Injective_map_NoDup; [|apply NoDup_range].
  intros a b. lia.
Qed.

(** The substitution layer: nybble by nybble, and 64 bits wide. *)
Section Substitution.
Variable tbl : Z -> Z.
Hypothesis tbl_range : forall n, 0 <= n < 16 -> 0 <= tbl n < 16.

Lemma substitute_nyb state j :
  In j (range4 16) -> nyb j (substitute tbl state) = tbl (nyb j state).
Proof.
  intros Hj. pose proof (proj1 (In_range4 _ _) Hj) as [Hr Hm].
  unfold substitute.
  rewrite (nyb_assemble (fun i => tbl (nyb i state)) (fun i => i)).
  - rewrite (pick_one _ _ j j); [| | assumption | reflexivity].
    { unfold nyb at 1. now rewrite Z.shiftr_0_l. }
    rewrite map_id. apply NoDup_range4.
  - intros i Hi. apply In_range4 in Hi.
    split; [apply tbl_range, nyb_range; lia | lia].
  - lia.
  - assumption.
Qed.

Lemma substitute_word state : 0 <= substitute tbl state < 2 ^ 64.
Proof.
  apply word64_of_bits. intros n Hn. unfold substitute.
  apply (assemble_high (fun i => tbl (nyb i state)) (fun i => i));
    [| assumption | apply Z.bits_0].
  intros i Hi. apply In_range4 in Hi.
  split; [apply tbl_range, nyb_range; lia | Z.div_mod_to_equations; lia].
Qed.

End Substitution.

Lemma s_substitute state : s state = substitute (getitem S) state.
Proof. unfold s, substitute. reflexivity. Qed.

Lemma s_inv_substitute state : s_inv state = substitute (index S) state.
Proof. unfold s_inv, substitute. reflexivity. Qed.

(** The nybble permutation layer, in the same way. *)
Section Permutation.
Variable src : Z -> Z.
Hypothesis src_range : forall n, 0 <= n < 16 -> 0 <= src n < 16.

Lemma permute_nyb state i :
  In i (range 16) ->
  nyb ((15 - i) * 4) (permute src state) = nyb ((15 - src i) * 4) state.
Proof.
  intros Hi. pose proof (proj1 (In_range _ _) Hi) as Hr.
  unfold permute, set_nybble, extract_nybble.
  rewrite (nyb_assemble (fun i => nyb ((15 - src i) * 4) state) (fun i => (15 - i) * 4)).
  - rewrite (pick_one _ _ ((15 - i) * 4) i);
      [| apply NoDup_nybble_slots | assumption | reflexivity].
    unfold nyb at 1. now rewrite Z.shiftr_0_l.
  - intros k Hk. apply In_range in Hk.
    pose proof (src_range k ltac:(lia)).
    split; [apply nyb_range; lia|]. split; [lia|]. apply Z.mod_mul. lia.
  - lia.
  - apply Z.mod_mul. lia.
Qed.

Lemma permute_word state : 0 <= permute src state < 2 ^ 64.
Proof.
  apply word64_of_bits. intros n Hn. unfold permute, set_nybble, extract_nybble.
  apply (assemble_high (fun i => nyb ((15 - src i) * 4) state) (fun i => (15 - i) * 4));
    [| assumption | apply Z.bits_0].
  intros k Hk. apply In_range in Hk.
  pose proof (src_range k ltac:(lia)).
  split; [apply nyb_range; lia | lia].
Qed.

End Permutation.

Lemma sr_permute state : sr state = permute (getitem SR) state.
Proof. unfold sr, permute. reflexivity. Qed.

Lemma sr_inv_permute state : sr_inv state = permute (index SR) state.
Proof. unfold sr_inv, permute. reflexivity. Qed.

Lemma nybble_slot j :
  In j (range4 16) -> exists i, In i (range 16) /\ j = (15 - i) * 4.
Proof.
  intros Hj. apply In_range4 in Hj. exists (15 - j / 4).
  split; [apply In_range|]; Z.div_mod_to_equations; lia.
Qed.

Lemma s_word state : 0 <= s state < 2 ^ 64.
Proof. rewrite s_substitute. apply substitute_word, S_getitem_range. Qed.

Lemma s_inv_word state : 0 <= s_inv state < 2 ^ 64.
Proof. rewrite s_inv_substitute. apply substitute_word, S_index_range. Qed.

Lemma sr_word state : 0 <= sr state < 2 ^ 64.
Proof. rewrite sr_permute. apply permute_word, SR_getitem_range. Qed.

Lemma sr_inv_word state : 0 <= sr_inv state < 2 ^ 64.
Proof. rewrite sr_inv_permute. apply permute_word, SR_index_range. Qed.

Lemma s_inv_s state : 0 <= state < 2 ^ 64 -> s_inv (s state) = state.
Proof.
  intros H. apply nybbles_ext; [apply s_inv_word | assumption |].
  intros j Hj. pose proof (proj1 (In_range4 _ _) Hj) as [Hr _].
  rewrite s_inv_substitute, substitute_nyb by (trivial; apply S_index_range).
  rewrite s_substitute, substitute_nyb by (trivial; apply S_getitem_range).
  apply S_index_getitem, nyb_range. lia.
Qed.

Lemma s_s_inv state : 0 <= state < 2 ^ 64 -> s (s_inv state) = state.
Proof.
  intros H. apply nybbles_ext; [apply s_word | assumption |].
  intros j Hj. pose proof (proj1 (In_range4 _ _) Hj) as [Hr _].
  rewrite s_substitute, substitute_nyb by (trivial; apply S_getitem_range).
  rewrite s_inv_substitute, substitute_nyb by (trivial; apply S_index_range).
  apply S_getitem_index, nyb_range. lia.
Qed.

Lemma sr_inv_sr state : 0 <= state < 2 ^ 64 -> sr_inv (sr state) = state.
Proof.
  intros H. apply nybbles_ext; [apply sr_inv_word | assumption |].
  intros j Hj. destruct (nybble_slot j Hj) as (i & Hi & ->).
  pose proof (proj1 (In_range _ _) Hi) as Hr.
  pose proof (SR_index_range i ltac:(lia)) as Hx.
  rewrite sr_inv_permute, permute_nyb by (trivial; apply SR_index_range).
  rewrite sr_permute, permute_nyb
    by (try apply SR_getitem_range; apply In_range; lia).
  now rewrite SR_getitem_index by lia.
Qed.

Lemma sr_sr_inv state : 0 <= state < 2 ^ 64 -> sr (sr_inv state) = state.
Proof.
  intros H. apply nybbles_ext; [apply sr_word | assumption |].
  intros j Hj. destruct (nybble_slot j Hj) as (i & Hi & ->).
  pose proof (proj1 (In_range _ _) Hi) as Hr.
  pose proof (SR_getitem_range i ltac:(lia)) as Hx.
  rewrite sr_permute, permute_nyb by (trivial; apply SR_getitem_range).
  rewrite sr_inv_permute, permute_nyb
    by (try apply SR_index_range; apply In_range; lia).
  now rewrite SR_index_getitem by lia.
Qed.

End Nybbles.



Section Diffusion.
Import Prince.

Lemma m_prime_xor_rows state :
  m_prime state = xor_rows (getitem M_PRIME) (range 64) state 0.
Proof. unfold m_prime, xor_rows. reflexivity. Qed.

Lemma bit_of_b2z state i :
  0 <= i <= 63 -> bit_of state i = Z.b2z (Z.testbit state (63 - i)).
Proof.
  intros Hi. unfold bit_of. change 1 with (Z.ones 1).
  rewrite Z.land_ones, <- Z.bit0_mod, Z.shiftr_spec by lia. reflexivity.
Qed.

Lemma lxor_swap a b c d : Z.lxor (Z.lxor a b) (Z.lxor c d) = Z.lxor (Z.lxor a c) (Z.lxor b d).
Proof.
  bitwise n.
  destruct (Z.testbit a n), (Z.testbit b n), (Z.testbit c n), (Z.testbit d n); reflexivity.
Qed.

Lemma b2z_xorb_mul (p q : bool) r :
  Z.b2z (xorb p q) * r = Z.lxor (Z.b2z p * r) (Z.b2z q * r).
Proof.
  destruct p, q; cbn [xorb Z.b2z];
    rewrite ?Z.mul_1_l, ?Z.mul_0_l, ?Z.lxor_0_r, ?Z.lxor_0_l, ?Z.lxor_nilpotent;
    reflexivity.
Qed.

Lemma xor_rows_lxor rows l : forall x y a b,
  (forall i, In i l -> 0 <= i <= 63) ->
  xor_rows rows l (Z.lxor x y) (Z.lxor a b)
  = Z.lxor (xor_rows rows l x a) (xor_rows rows l y b).
Proof.
  induction l as [|i l IH]; intros x y a b Hl; [reflexivity|].
  unfold xor_rows in *. cbn [fold_left].
  rewrite <- IH by (intros; apply Hl; now right). f_equal.
  rewrite !bit_of_b2z by (apply Hl; now left).
  now rewrite Z.lxor_spec, b2z_xorb_mul, lxor_swap.
Qed.

Lemma xor_rows_0 rows l : (forall i, In i l -> 0 <= i <= 63) -> xor_rows rows l 0 0 = 0.
Proof.
  induction l as [|i l IH]; intros Hl; [reflexivity|].
  unfold xor_rows in *. cbn [fold_left].
  rewrite bit_of_b2z, Z.bits_0 by (apply Hl; now left). cbn.
  apply IH. intros; apply Hl; now right.
Qed.

Lemma range_bits n i : (n <= 64)%nat -> In i (range n) -> 0 <= i <= 63.
Proof. intros Hn Hi. apply In_range in Hi. lia. Qed.

Lemma m_prime_lxor x y : m_prime (Z.lxor x y) = Z.lxor (m_prime x) (m_prime y).
Proof.
  rewrite !m_prime_xor_rows. rewrite <- xor_rows_lxor; [reflexivity|].
  intros i. now apply range_bits.
Qed.

Lemma m_prime_0 : m_prime 0 = 0.
Proof. vm_compute. reflexivity. Qed.

(** A map that respects XOR commutes with a XOR of selected rows. *)
Section Linear.
Variable f : Z -> Z.
Hypothesis f_lxor : forall x y, f (Z.lxor x y) = Z.lxor (f x) (f y).
Hypothesis f_0 : f 0 = 0.

Lemma linear_scale (c : bool) y : f (Z.b2z c * y) = Z.b2z c * f y.
Proof.
  destruct c; cbn [Z.b2z]; [now rewrite !Z.mul_1_l | now rewrite !Z.mul_0_l].
Qed.

Lemma linear_xor_rows rows l state : forall acc,
  (forall i, In i l -> 0 <= i <= 63) ->
  f (xor_rows rows l state acc) = xor_rows (fun i => f (rows i)) l state (f acc).
Proof.
  induction l as [|i l IH]; intros acc Hl; [reflexivity|].
  unfold xor_rows in *. cbn [fold_left].
  rewrite IH by (intros; apply Hl; now right). f_equal.
  rewrite f_lxor. f_equal.
  rewrite bit_of_b2z by (apply Hl; now left). apply linear_scale.
Qed.

End Linear.

Lemma m_prime_xor_rows_comm rows l state acc :
  (forall i, In i l -> 0 <= i <= 63) ->
  m_prime (xor_rows rows l state acc)
  = xor_rows (fun i => m_prime (rows i)) l state (m_prime acc).
Proof.
  apply (linear_xor_rows m_prime m_prime_lxor m_prime_0).
Qed.

Lemma xor_rows_ext rows rows' l state : forall acc,
  (forall i, In i l -> rows i = rows' i) ->
  xor_rows rows l state acc = xor_rows rows' l state acc.
Proof.
  induction l as [|i l IH]; intros acc H; [reflexivity|].
  unfold xor_rows in *. cbn [fold_left].
  rewrite (H i) by now left. apply IH. intros; apply H; now right.
Qed.

(** The matrix of [M_PRIME] is its own inverse: the image of row [i] is the
    unit vector of bit [i]. *)
Lemma m_prime_row i : In i (range 64) -> m_prime (getitem M_PRIME i) = 2 ^ (63 - i).
Proof.
  intros Hi. apply In_range in Hi. apply Z.eqb_eq.
  apply (forall_range (fun i => m_prime (getitem M_PRIME i) =? 2 ^ (63 - i)) 64);
    [vm_compute; reflexivity | assumption].
Qed.

Lemma M_PRIME_row_word i : In i (range 64) -> 0 <= getitem M_PRIME i < 2 ^ 64.
Proof.
  intros Hi. apply In_range in Hi.
  assert (H : ((0 <=? getitem M_PRIME i) && (getitem M_PRIME i <? 2 ^ 64)) = true).
  { apply (forall_range
             (fun i => (0 <=? getitem M_PRIME i) && (getitem M_PRIME i <? 2 ^ 64)) 64);
      [vm_compute; reflexivity | assumption]. }
  apply andb_true_iff in H. lia.
Qed.

Lemma testbit_xor_fold (h : Z -> Z) n l : forall a,
  Z.testbit (fold_left (fun ret i => Z.lxor ret (h i)) l a) n
  = fold_left (fun r i => xorb r (Z.testbit (h i) n)) l (Z.testbit a n).
Proof.
  induction l as [|i l IH]; intros a; [reflexivity|].
  cbn [fold_left]. now rewrite IH, Z.lxor_spec.
Qed.

Lemma xorb_fold_ext (f g : Z -> bool) l : forall a,
  (forall i, In i l -> f i = g i) ->
  fold_left (fun r i => xorb r (f i)) l a = fold_left (fun r i => xorb r (g i)) l a.
Proof.
  induction l as [|i l IH]; intros a H; [reflexivity|].
  cbn [fold_left]. rewrite (H i) by now left. apply IH. intros; apply H; now right.
Qed.

Lemma xorb_fold_false l : forall a, fold_left (fun r (_ : Z) => xorb r false) l a = a.
Proof.
  induction l as [|i l IH]; intros a; [reflexivity|].
  cbn [fold_left]. now rewrite IH, xorb_false_r.
Qed.

Lemma xorb_pick_none (b : bool) (sh : Z -> Z) n l : forall a,
  (forall i, In i l -> sh i <> n) ->
  fold_left (fun r i => xorb r (b && (sh i =? n))) l a = a.
Proof.
  intros a H. rewrite (xorb_fold_ext _ (fun _ => false)); [apply xorb_fold_false|].
  intros i Hi. apply H in Hi. apply Z.eqb_neq in Hi. rewrite Hi. apply andb_false_r.
Qed.

Lemma xorb_pick_one (b : bool) (sh : Z -> Z) n i0 l : forall a,
  NoDup (map sh l) -> In i0 l -> sh i0 = n ->
  fold_left (fun r i => xorb r (b && (sh i =? n))) l a = xorb a b.
Proof.
  induction l as [|i l IH]; intros a Hnd Hin Hsh; [contradiction|].
  cbn [fold_left map] in *. inversion Hnd as [|? ? Hni Hnd']; subst.
  destruct Hin as [->|Hin].
  - rewrite Z.eqb_refl, andb_true_r. apply xorb_pick_none.
    intros i Hi E. apply Hni. rewrite <- E. now apply in_map.
  - rewrite IH by trivial. f_equal.
    destruct (Z.eqb_spec (sh i) (sh i0)) as [E|_];
      [|now rewrite andb_false_r, xorb_false_r].
    exfalso. apply Hni. rewrite E. now apply in_map.
Qed.

Lemma testbit_unit_row state i n :
  0 <= i <= 63 -> 0 <= n ->
  Z.testbit (bit_of state i * 2 ^ (63 - i)) n = Z.testbit state n && (63 - i =? n).
Proof.
  intros Hi Hn. rewrite bit_of_b2z by assumption.
  destruct (Z.eqb_spec (63 - i) n) as [<-|Hne].
  - destruct (Z.testbit state (63 - i)); cbn [Z.b2z].
    + rewrite Z.mul_1_l. apply Z.pow2_bits_true. lia.
    + rewrite Z.mul_0_l. apply Z.bits_0.
  - rewrite andb_false_r. destruct (Z.testbit state (63 - i)); cbn [Z.b2z].
    + rewrite Z.mul_1_l. apply Z.pow2_bits_false. lia.
    + rewrite Z.mul_0_l. apply Z.bits_0.
Qed.

(** A 64-bit word is the XOR of the unit vectors of its set bits. *)
Lemma xor_unit_rows state :
  0 <= state < 2 ^ 64 ->
  xor_rows (fun i => 2 ^ (63 - i)) (range 64) state 0 = state.
Proof.
  intros Hw. apply Z.bits_inj'. intros n Hn. unfold xor_rows.
  rewrite (testbit_xor_fold (fun i => bit_of state i * 2 ^ (63 - i))), Z.bits_0.
  rewrite (xorb_fold_ext _ (fun i => Z.testbit state n && (63 - i =? n)))
    by (intros i Hi; apply testbit_unit_row; [now apply (range_bits 64) | assumption]).
  destruct (Z.ltb_spec n 64) as [Hlt|Hge].
  - rewrite (xorb_pick_one _ (fun i => 63 - i) n (63 - n)); [reflexivity | | | lia].
    + apply Injective_map_NoDup; [|apply NoDup_range]. intros a b. lia.
    + apply In_range. lia.
  - rewrite xorb_pick_none; [now rewrite word64_high|].
    intros i Hi. apply In_range in Hi. lia.
Qed.

Lemma m_prime_m_prime state : 0 <= state < 2 ^ 64 -> m_prime (m_prime state) = state.
Proof.
  intros Hw. rewrite (m_prime_xor_rows state).
  rewrite m_prime_xor_rows_comm by (intros i; apply (range_bits 64); lia).
  rewrite m_prime_0.
  rewrite (xor_rows_ext _ (fun i => 2 ^ (63 - i))) by apply m_prime_row.
  now apply xor_unit_rows.
Qed.

Lemma m_prime_word state : 0 <= m_prime state < 2 ^ 64.
Proof.
  apply word64_of_bits. intros n Hn. unfold m_prime.
  rewrite (testbit_xor_fold
             (fun i => Z.land (Z.shiftr state (63 - i)) 1 * getitem M_PRIME i)), Z.bits_0.
  rewrite (xorb_fold_ext _ (fun _ => false)); [apply xorb_fold_false|].
  intros i Hi. fold (bit_of state i). rewrite bit_of_b2z by now apply (range_bits 64).
  destruct (Z.testbit state (63 - i)); cbn [Z.b2z].
  - rewrite Z.mul_1_l. apply word64_high; [now apply M_PRIME_row_word | assumption].
  - rewrite Z.mul_0_l. apply Z.bits_0.
Qed.

End Diffusion.

Section Core.
Import Prince.

Lemma lxor_word x y : 0 <= x < 2 ^ 64 -> 0 <= y < 2 ^ 64 -> 0 <= Z.lxor x y < 2 ^ 64.
Proof.
  intros Hx Hy. apply word64_of_bits. intros i Hi.
  now rewrite Z.lxor_spec, !word64_high.
Qed.

Lemma m_word state : 0 <= m state < 2 ^ 64.
Proof. unfold m. apply sr_word. Qed.

Lemma m_inv_word state : 0 <= m_inv state < 2 ^ 64.
Proof. unfold m_inv. apply m_prime_word. Qed.

Lemma m_inv_m state : 0 <= state < 2 ^ 64 -> m_inv (m state) = state.
Proof.
  intros H. unfold m, m_inv. cbv zeta.
  rewrite sr_inv_sr by apply m_prime_word. now apply m_prime_m_prime.
Qed.

Lemma m_m_inv state : 0 <= state < 2 ^ 64 -> m (m_inv state) = state.
Proof.
  intros H. unfold m, m_inv. cbv zeta.
  rewrite m_prime_m_prime by apply sr_inv_word. now apply sr_sr_inv.
Qed.

Lemma middle_word state : 0 <= middle state < 2 ^ 64.
Proof. unfold middle. apply s_inv_word. Qed.

Lemma middle_middle state : 0 <= state < 2 ^ 64 -> middle (middle state) = state.
Proof.
  intros H. unfold middle. cbv zeta.
  rewrite s_s_inv by apply m_prime_word.
  rewrite m_prime_m_prime by apply s_word.
  now apply s_inv_s.
Qed.

Lemma RC_word i : 0 <= i <= 11 -> 0 <= getitem RC i < 2 ^ 64.
Proof.
  intros Hi.
  assert (H : ((0 <=? getitem RC i) && (getitem RC i <? 2 ^ 64)) = true).
  { apply (forall_range (fun i => (0 <=? getitem RC i) && (getitem RC i <? 2 ^ 64)) 12);
      [vm_compute; reflexivity | lia]. }
  apply andb_true_iff in H. lia.
Qed.

(** The round constants of [RC] reflect around the middle: [RC[i] ^ RC[11 - i]]
    is alpha for every [i]. *)
Lemma RC_reflect i : 0 <= i <= 11 ->
  Z.lxor (Z.lxor (getitem RC i) alpha) (getitem RC (11 - i)) = 0.
Proof.
  intros Hi. apply Z.eqb_eq.
  apply (forall_range
           (fun i => Z.lxor (Z.lxor (getitem RC i) alpha) (getitem RC (11 - i)) =? 0) 12);
    [vm_compute; reflexivity | lia].
Qed.

Lemma alpha_word : 0 <= alpha < 2 ^ 64.
Proof. apply RC_word. lia. Qed.

Lemma lxor_round_cancel a c k al d :
  Z.lxor (Z.lxor c al) d = 0 ->
  Z.lxor (Z.lxor (Z.lxor (Z.lxor a c) k) (Z.lxor k al)) d = a.
Proof.
  intros H. transitivity (Z.lxor a (Z.lxor (Z.lxor c al) d)); [|now rewrite H, Z.lxor_0_r].
  bitwise n.
  destruct (Z.testbit a n), (Z.testbit c n), (Z.testbit k n), (Z.testbit al n),
           (Z.testbit d n); reflexivity.
Qed.

Lemma lxor_round_cancel' a c k al d :
  Z.lxor (Z.lxor c al) d = 0 ->
  Z.lxor (Z.lxor (Z.lxor (Z.lxor a k) c) d) (Z.lxor k al) = a.
Proof.
  intros H. transitivity (Z.lxor a (Z.lxor (Z.lxor c al) d)); [|now rewrite H, Z.lxor_0_r].
  bitwise n.
  destruct (Z.testbit a n), (Z.testbit c n), (Z.testbit k n), (Z.testbit al n),
           (Z.testbit d n); reflexivity.
Qed.

(** Runs of rounds, for any round function [F] undone by [B]. *)
Section RunsOfRounds.
Variable F : Z -> Z -> Z.
Variable B : Z -> Z -> Z.
Hypothesis F_word :
  forall x i, 0 <= x < 2 ^ 64 -> 0 <= i <= 11 -> 0 <= F x i < 2 ^ 64.
Hypothesis B_F :
  forall x i, 0 <= x < 2 ^ 64 -> 0 <= i <= 11 -> B (F x i) (11 - i) = x.

Lemma rounds_word l : forall x,
  0 <= x < 2 ^ 64 -> (forall i, In i l -> 0 <= i <= 11) ->
  0 <= fold_left F l x < 2 ^ 64.
Proof.
  induction l as [|i l IH]; intros x Hx Hl; [assumption|].
  cbn [fold_left]. apply IH; [|intros; apply Hl; now right].
  apply F_word; [assumption | apply Hl; now left].
Qed.

Lemma unwind_rounds l : forall x,
  0 <= x < 2 ^ 64 -> (forall i, In i l -> 0 <= i <= 11) ->
  fold_left B (map (fun i => 11 - i) (rev l)) (fold_left F l x) = x.
Proof.
  induction l as [|i l IH]; intros x Hx Hl; [reflexivity|].
  cbn [fold_left rev]. rewrite map_app, fold_left_app. cbn [map fold_left].
  rewrite IH.
  - apply B_F; [assumption | apply Hl; now left].
  - apply F_word; [assumption | apply Hl; now left].
  - intros; apply Hl; now right.
Qed.

End RunsOfRounds.

Section Rounds.
Variable k1 : Z.
Hypothesis k1_word : 0 <= k1 < 2 ^ 64.

Lemma forward_round_word state i :
  0 <= i <= 11 -> 0 <= forward_round k1 RC state i < 2 ^ 64.
Proof.
  intros Hi. unfold forward_round. cbv zeta.
  apply lxor_word; [apply lxor_word; [apply m_word | now apply RC_word] | assumption].
Qed.

Lemma backward_round_word k state i : 0 <= backward_round k RC state i < 2 ^ 64.
Proof. unfold backward_round. apply s_inv_word. Qed.

(** A backward round with the key [k1 ^ alpha] and the reflected round
    constant undoes a forward round with the key [k1]. *)
Lemma backward_forward state i :
  0 <= state < 2 ^ 64 -> 0 <= i <= 11 ->
  backward_round (Z.lxor k1 alpha) RC (forward_round k1 RC state i) (11 - i) = state.
Proof.
  intros Hs Hi. unfold backward_round, forward_round. cbv zeta.
  rewrite lxor_round_cancel by now apply RC_reflect.
  rewrite m_inv_m by apply s_word. now apply s_inv_s.
Qed.

(** And a forward round with [k1 ^ alpha] undoes a backward round with [k1]. *)
Lemma forward_backward state i :
  0 <= state < 2 ^ 64 -> 0 <= i <= 11 ->
  forward_round (Z.lxor k1 alpha) RC (backward_round k1 RC state i) (11 - i) = state.
Proof.
  intros Hs Hi. unfold backward_round, forward_round. cbv zeta.
  rewrite s_s_inv by apply m_inv_word.
  rewrite m_m_inv
    by (apply lxor_word; [apply lxor_word; trivial | apply RC_word; lia]).
  apply lxor_round_cancel'.
  replace (11 - (11 - i)) with i by lia.
  rewrite <- (RC_reflect i Hi). bitwise n.
  destruct (Z.testbit (getitem RC (11 - i)) n), (Z.testbit alpha n),
           (Z.testbit (getitem RC i) n); reflexivity.
Qed.

Lemma forward_rounds_word l state :
  0 <= state < 2 ^ 64 -> (forall i, In i l -> 0 <= i <= 11) ->
  0 <= fold_left (forward_round k1 RC) l state < 2 ^ 64.
Proof.
  apply rounds_word. intros x i _. apply forward_round_word.
Qed.

(** Running the reflected rounds in reverse order unwinds a run of rounds. *)
Lemma unwind_forward l state :
  0 <= state < 2 ^ 64 -> (forall i, In i l -> 0 <= i <= 11) ->
  fold_left (backward_round (Z.lxor k1 alpha) RC) (map (fun i => 11 - i) (rev l))
            (fold_left (forward_round k1 RC) l state)
  = state.
Proof.
  apply unwind_rounds.
  - intros x i _. apply forward_round_word.
  - apply backward_forward.
Qed.

Lemma unwind_backward l state :
  0 <= state < 2 ^ 64 -> (forall i, In i l -> 0 <= i <= 11) ->
  fold_left (forward_round (Z.lxor k1 alpha) RC) (map (fun i => 11 - i) (rev l))
            (fold_left (backward_round k1 RC) l state)
  = state.
Proof.
  apply unwind_rounds.
  - intros x i _ _. apply backward_round_word.
  - apply forward_backward.
Qed.

Lemma prince_core_unfold k state :
  prince_core state k RC
  = Z.lxor (Z.lxor
      (fold_left (backward_round k RC) [6; 7; 8; 9; 10]
         (middle (fold_left (forward_round k RC) [1; 2; 3; 4; 5]
                    (Z.lxor (Z.lxor state k) (getitem RC 0)))))
      (getitem RC 11)) k.
Proof. unfold prince_core, middle. reflexivity. Qed.

(** The core under the key [k1 ^ alpha] is the inverse of the core under
    [k1]: PRINCE's alpha-reflection. *)
Lemma prince_core_reflection state :
  0 <= state < 2 ^ 64 ->
  prince_core (prince_core state k1 RC) (Z.lxor k1 alpha) RC = state.
Proof.
  intros Hs.
  rewrite (prince_core_unfold k1 state).
  set (a0 := Z.lxor (Z.lxor state k1) (getitem RC 0)).
  assert (Ha0 : 0 <= a0 < 2 ^ 64)
    by (apply lxor_word; [now apply lxor_word | apply RC_word; lia]).
  set (a5 := fold_left (forward_round k1 RC) [1; 2; 3; 4; 5] a0).
  assert (Ha5 : 0 <= a5 < 2 ^ 64).
  { apply forward_rounds_word; [assumption|]. cbn. intros i Hi. lia. }
  set (c := fold_left (backward_round k1 RC) [6; 7; 8; 9; 10] (middle a5)).
  rewrite prince_core_unfold.
  replace (Z.lxor (Z.lxor (Z.lxor (Z.lxor c (getitem RC 11)) k1) (Z.lxor k1 alpha))
                  (getitem RC 0)) with c
    by (symmetry; apply lxor_round_cancel; reflexivity).
  change [1; 2; 3; 4; 5] with (map (fun i => 11 - i) (rev [6; 7; 8; 9; 10])).
  subst c. rewrite unwind_backward; [| apply middle_word | cbn; intros i Hi; lia].
  rewrite middle_middle by assumption.
  change [6; 7; 8; 9; 10] with (map (fun i => 11 - i) (rev [1; 2; 3; 4; 5])).
  subst a5. rewrite unwind_forward; [| assumption | cbn; intros i Hi; lia].
  subst a0. apply lxor_round_cancel'. vm_compute. reflexivity.
Qed.

End Rounds.

Lemma prince_unfold val k0 k1 rc :
  prince val k0 k1 rc = Z.lxor (prince_core (Z.lxor val k0) k1 rc) (complement k0).
Proof. unfold prince, complement. reflexivity. Qed.

End Core.

Section CipherTheorems.
Import Prince AppleKdf.

(** Every member of [KdfUsage] is a 4-bit usage code. *)
Lemma usage_value_4bit u : 0 <= usage_value u < 16.
Proof. destruct u; cbn; lia. Qed.

(** C6: the middle layer of the PRINCE core (substitute, then the non-permuted
    diffusion [m_prime], then unsubstitute) is an involution on 64-bit states,
    and so is [m_prime] itself. *)
Theorem middle_layer_involution x :
  0 <= x < 2 ^ 64 ->
  s_inv (m_prime (s (s_inv (m_prime (s x))))) = x /\
  middle (middle x) = x /\
  m_prime (m_prime x) = x.
Proof.
  intros Hx. split; [|split].
  - rewrite s_s_inv by apply m_prime_word.
    rewrite m_prime_m_prime by apply s_word.
    now apply s_inv_s.
  - now apply middle_middle.
  - now apply m_prime_m_prime.
Qed.

Lemma middle_layer_involution_witness :
  s_inv (m_prime (s (s_inv (m_prime (s 0x0123456789abcdef))))) = 0x0123456789abcdef /\
  middle (middle 0x0123456789abcdef) = 0x0123456789abcdef /\
  m_prime (m_prime 0x0123456789abcdef) = 0x0123456789abcdef.
Proof.
  apply (middle_layer_involution 0x0123456789abcdef). lia.
Defined.

(** C5 (amended): PRINCE is undone by running it with the whitening keys
    exchanged and with alpha, the last round constant, XORed into [k1]:
    the core under [k1 ^ alpha], applied to the ciphertext with the
    whitening key [complement k0] removed, gives the plaintext after [k0] is
    removed; through [prince] itself, which whitens with the complement of its
    own first key, the plaintext comes back up to [k0 ^ complement
    (complement k0)]. *)
Theorem prince_decryption value k0 k1 :
  0 <= value < 2 ^ 64 -> 0 <= k0 < 2 ^ 64 -> 0 <= k1 < 2 ^ 64 ->
  Z.lxor (prince_core (Z.lxor (prince value k0 k1 RC) (complement k0))
                      (Z.lxor k1 alpha) RC) k0
  = value /\
  prince (prince value k0 k1 RC) (complement k0) (Z.lxor k1 alpha) RC
  = Z.lxor value (Z.lxor k0 (complement (complement k0))).
Proof.
  intros Hv Hk0 Hk1.
  assert (Hin : 0 <= Z.lxor value k0 < 2 ^ 64) by now apply lxor_word.
  assert (E : prince_core (Z.lxor (prince value k0 k1 RC) (complement k0))
                          (Z.lxor k1 alpha) RC
              = Z.lxor value k0).
  { rewrite prince_unfold, Z.lxor_assoc, Z.lxor_nilpotent, Z.lxor_0_r.
    now apply prince_core_reflection. }
  split.
  - now rewrite E, Z.lxor_assoc, Z.lxor_nilpotent, Z.lxor_0_r.
  - rewrite (prince_unfold (prince value k0 k1 RC)), E. apply Z.lxor_assoc.
Qed.

Lemma prince_decryption_witness :
  Z.lxor (prince_core (Z.lxor (prince 0x0123456789abcdef 0x0011223344556677
                                      0x8899aabbccddeeff RC)
                              (complement 0x0011223344556677))
                      (Z.lxor 0x8899aabbccddeeff alpha) RC) 0x0011223344556677
  = 0x0123456789abcdef /\
  prince (prince 0x0123456789abcdef 0x0011223344556677 0x8899aabbccddeeff RC)
         (complement 0x0011223344556677) (Z.lxor 0x8899aabbccddeeff alpha) RC
  = Z.lxor 0x0123456789abcdef
           (Z.lxor 0x0011223344556677 (complement (complement 0x0011223344556677))).
Proof.
  apply (prince_decryption 0x0123456789abcdef 0x0011223344556677 0x8899aabbccddeeff);
    lia.
Defined.

(** C5 as stated fails: with the all-zero key the ciphertext of 0 is
    0x818665aa0d02dfda, the complement of [k0 = 0] is 0, and encrypting the
    ciphertext again under the same [k1] does not give 0 back. *)
Lemma prince_not_self_inverse :
  prince 0 0 0 RC = 0x818665aa0d02dfda /\
  complement 0 = 0 /\
  prince (prince 0 0 0 RC) (complement 0) 0 RC = 0xd935e1652c6921ee /\
  prince (prince 0 0 0 RC) (complement 0) 0 RC <> 0.
Proof.
  split; [vm_compute; reflexivity|]. split; [reflexivity|].
  split; [vm_compute; reflexivity|]. vm_compute. discriminate.
Qed.

(** C3 (amended): [kdf] builds [modifier1] as
    [((usage & 0b1000) << 2) | (usage & 0b111)], whose bits 3 and 4 are 0, and
    [modifier2] as the same construction with bit 3 (not bit 4) forced to 1,
    that is [modifier1 | 0b01000]; each half of the output key comes from two
    [modified_prince] invocations keyed with its modifier. *)
Theorem kdf_modifiers ikey_hi ikey_lo data_hi data_lo usage :
  0 <= usage < 16 ->
  modifier1 usage = Z.lor (Z.shiftl (Z.land usage 8) 2) (Z.land usage 7) /\
  Z.testbit (modifier1 usage) 3 = false /\
  Z.testbit (modifier1 usage) 4 = false /\
  modifier2 usage = Z.lor (modifier1 usage) 8 /\
  Z.testbit (modifier2 usage) 3 = true /\
  Z.testbit (modifier2 usage) 4 = false /\
  kdf ikey_hi ikey_lo data_hi data_lo usage
  = (modified_prince
       (Z.lxor (modified_prince data_hi ikey_hi ikey_lo (modifier1 usage)) data_lo)
       ikey_hi ikey_lo (modifier1 usage),
     modified_prince
       (Z.lxor (modified_prince data_hi ikey_hi ikey_lo (modifier2 usage)) data_lo)
       ikey_hi ikey_lo (modifier2 usage)).
Proof.
  intros Hu.
  assert (Hk : forall u, 0 <= u < 16 ->
    (modifier1 u =? Z.lor (Z.shiftl (Z.land u 8) 2) (Z.land u 7))
    && negb (Z.testbit (modifier1 u) 3) && negb (Z.testbit (modifier1 u) 4)
    && (modifier2 u =? Z.lor (modifier1 u) 8)
    && Z.testbit (modifier2 u) 3 && negb (Z.testbit (modifier2 u) 4) = true).
  { apply (forall_range _ 16). vm_compute. reflexivity. }
  specialize (Hk usage Hu).
  repeat (apply andb_true_iff in Hk; destruct Hk as [Hk ?]).
  repeat match goal with
         | H : negb _ = true |- _ => apply negb_true_iff in H
         | H : (_ =? _) = true |- _ => apply Z.eqb_eq in H
         end.
  repeat (split; [assumption|]). unfold kdf. reflexivity.
Qed.

Lemma kdf_modifiers_witness :
  modifier1 9 = Z.lor (Z.shiftl (Z.land 9 8) 2) (Z.land 9 7) /\
  Z.testbit (modifier1 9) 3 = false /\
  Z.testbit (modifier1 9) 4 = false /\
  modifier2 9 = Z.lor (modifier1 9) 8 /\
  Z.testbit (modifier2 9) 3 = true /\
  Z.testbit (modifier2 9) 4 = false /\
  kdf 1 2 3 4 9
  = (modified_prince (Z.lxor (modified_prince 3 1 2 (modifier1 9)) 4) 1 2 (modifier1 9),
     modified_prince (Z.lxor (modified_prince 3 1 2 (modifier2 9)) 4) 1 2 (modifier2 9)).
Proof.
  apply (kdf_modifiers 1 2 3 4 9). lia.
Defined.

(** C3 as stated fails: for the usage code 0 (APIAKey) [modifier2] is
    0b01000 = 8, not 0b10000 = 16, and the low half of the derived key is
    not the one that a modifier with bit 4 set would give. *)
Lemma kdf_modifier2_is_bit_3 :
  modifier1 0 = 0 /\
  modifier2 0 = 8 /\
  modifier2 0 <> Z.lor (modifier1 0) 16 /\
  snd (kdf 0 0 0 0 0)
  <> modified_prince (Z.lxor (modified_prince 0 0 0 (Z.lor (modifier1 0) 16)) 0)
                     0 0 (Z.lor (modifier1 0) 16).
Proof.
  split; [reflexivity|]. split; [reflexivity|].
  split; vm_compute; discriminate.
Qed.

End CipherTheorems.

(** The first test vector of the PRINCE paper. *)
Example prince_zero : Prince.prince 0 0 0 Prince.RC = 0x818665aa0d02dfda.
Proof. vm_compute. reflexivity. Qed.

(** * Further properties of the pointer-authentication operations *)

Section MorePointerAuthentication.
Import Prince FeatPAuth.

Lemma shiftl_ones_value w n :
  0 <= w -> 0 <= n -> Z.shiftl (Z.ones w) n = 2 ^ (n + w) - 2 ^ n.
Proof.
  intros Hw Hn. rewrite Z.shiftl_mul_pow2, Z.ones_equiv, Z.pow_add_r by assumption.
  unfold Z.pred. ring.
Qed.

(** X1: [_BitMask(bit_from, bit_to)] raises exactly when [bit_from] is negative
    or lies more than one above [bit_to]; otherwise it returns
    [2^(bit_to+1) - 2^bit_from], whose set bits are exactly
    [bit_from .. bit_to] (none when [bit_from = bit_to + 1]). *)
Theorem BitMask_spec bit_from bit_to :
  match _BitMask bit_from bit_to with
  | Some mask =>
      0 <= bit_from <= bit_to + 1 /\
      mask = 2 ^ (bit_to + 1) - 2 ^ bit_from /\
      forall i, Z.testbit mask i = (bit_from <=? i) && (i <=? bit_to)
  | None => bit_from < 0 \/ bit_to + 1 < bit_from
  end.
Proof.
  destruct (_BitMask bit_from bit_to) as [mask|] eqn:E.
  - pose proof (BitMask_Some _ _ _ E) as [H Hm].
    split; [assumption|]. split.
    + rewrite Hm, shiftl_ones_value by lia. f_equal. f_equal. lia.
    + intros i. now apply BitMask_testbit.
  - destruct (Z.lt_ge_cases bit_from 0) as [|H0]; [now left|].
    destruct (Z.lt_ge_cases (bit_to + 1) bit_from) as [|H1]; [now right|].
    rewrite BitMask_defined in E by lia. discriminate.
Qed.

Lemma AddPAC_defined ptr k_hi k_lo modifier bottom_pac_bit tbi ehp ehp2 :
  0 <= bottom_pac_bit <= 55 ->
  exists signed,
    AddPAC ptr k_hi k_lo modifier bottom_pac_bit tbi ehp ehp2 = Some signed.
Proof.
  intros Hb.
  destruct (Strip_defined ptr bottom_pac_bit tbi Hb) as [orig ES].
  destruct (PACMask_defined bottom_pac_bit tbi Hb) as [mask EM].
  rewrite (AddPAC_eq _ k_hi k_lo modifier _ _ ehp ehp2 _ _ ES EM). eauto.
Qed.

Lemma Auth_defined ptr k_hi k_lo b_key modifier bottom_pac_bit tbi ehp2 :
  0 <= bottom_pac_bit <= 55 ->
  exists ret, Auth ptr k_hi k_lo b_key modifier bottom_pac_bit tbi ehp2 = Some ret.
Proof.
  intros Hb.
  destruct (Strip_defined ptr bottom_pac_bit tbi Hb) as [orig ES].
  destruct (PACMask_defined bottom_pac_bit tbi Hb) as [mask EM].
  rewrite (Auth_eq _ k_hi k_lo b_key modifier _ _ ehp2 _ _ ES EM). eauto.
Qed.

Lemma AddPAC_raises ptr k_hi k_lo modifier bottom_pac_bit tbi ehp ehp2 :
  bottom_pac_bit < 0 \/ 55 < bottom_pac_bit ->
  AddPAC ptr k_hi k_lo modifier bottom_pac_bit tbi ehp ehp2 = None.
Proof.
  intros H. unfold AddPAC. now rewrite Strip_raises.
Qed.

Lemma Auth_raises ptr k_hi k_lo b_key modifier bottom_pac_bit tbi ehp2 :
  bottom_pac_bit < 0 \/ 55 < bottom_pac_bit ->
  Auth ptr k_hi k_lo b_key modifier bottom_pac_bit tbi ehp2 = None.
Proof.
  intros H. unfold Auth. now rewrite Strip_raises.
Qed.

(** X2: [Strip], [AddPAC] and [Auth] raise exactly when [bottom_pac_bit] is
    outside 0..55, whatever the pointer, the key, the modifier and the
    flags are. *)
Theorem pauth_raises_iff ptr k_hi k_lo b_key modifier bottom_pac_bit tbi ehp ehp2 :
  (Strip ptr bottom_pac_bit tbi = None <-> ~ 0 <= bottom_pac_bit <= 55) /\
  (AddPAC ptr k_hi k_lo modifier bottom_pac_bit tbi ehp ehp2 = None
   <-> ~ 0 <= bottom_pac_bit <= 55) /\
  (Auth ptr k_hi k_lo b_key modifier bottom_pac_bit tbi ehp2 = None
   <-> ~ 0 <= bottom_pac_bit <= 55).
Proof.
  assert (D : 0 <= bottom_pac_bit <= 55 \/ (bottom_pac_bit < 0 \/ 55 < bottom_pac_bit))
    by lia.
  repeat split; intros H.
  - intros Hb. destruct (Strip_defined ptr _ tbi Hb) as [r E]. congruence.
  - destruct D as [Hb|Hb]; [contradiction | now apply Strip_raises].
  - intros Hb.
    destruct (AddPAC_defined ptr k_hi k_lo modifier _ tbi ehp ehp2 Hb) as [r E].
    congruence.
  - destruct D as [Hb|Hb]; [contradiction | now apply AddPAC_raises].
  - intros Hb.
    destruct (Auth_defined ptr k_hi k_lo b_key modifier _ tbi ehp2 Hb) as [r E].
    congruence.
  - destruct D as [Hb|Hb]; [contradiction | now apply Auth_raises].
Qed.

Lemma extension_in_field bottom_pac_bit tbi i :
  bottom_pac_bit <= i <= top_bit tbi -> i <> 55 -> in_field bottom_pac_bit tbi i = true.
Proof.
  intros Hi Hne. unfold in_field.
  destruct (Z.leb_spec bottom_pac_bit i); [|lia].
  destruct tbi; cbn in Hi |- *.
  - destruct (Z.leb_spec i 54); [reflexivity | lia].
  - destruct (Z.leb_spec i 54); [reflexivity|].
    destruct (Z.leb_spec 56 i); [|lia]. destruct (Z.leb_spec i 63); [reflexivity | lia].
Qed.

Lemma in_field_extension bottom_pac_bit tbi i :
  in_field bottom_pac_bit tbi i = true -> bottom_pac_bit <= 55 ->
  bottom_pac_bit <= i <= top_bit tbi /\ i <> 55.
Proof.
  unfold in_field. intros F Hb. destruct tbi; cbn in F |- *.
  - rewrite orb_false_r in F. apply andb_true_iff in F. lia.
  - apply orb_true_iff in F. rewrite !andb_true_iff in F. lia.
Qed.

(** X3: [Strip] always returns a canonical pointer, and the pointers it
    returns unchanged are exactly the canonical ones. *)
Theorem Strip_returns_canonical ptr bottom_pac_bit tbi :
  0 <= bottom_pac_bit <= 55 ->
  exists stripped,
    Strip ptr bottom_pac_bit tbi = Some stripped /\
    canonical stripped bottom_pac_bit tbi = true /\
    (stripped = ptr <-> canonical ptr bottom_pac_bit tbi = true).
Proof.
  intros Hb. destruct (Strip_defined ptr bottom_pac_bit tbi Hb) as [r ES].
  exists r. split; [assumption|].
  assert (Hc : canonical r bottom_pac_bit tbi = true).
  { apply canonical_spec.
    assert (A : forall i, bottom_pac_bit <= i <= top_bit tbi ->
                          Z.testbit r i = Z.testbit ptr 55).
    { intros i Hi. rewrite (Strip_testbit _ _ _ _ i ES).
      destruct (Z.eq_dec i 55) as [->|Hne]; [now rewrite in_field_55|].
      now rewrite extension_in_field. }
    intros i Hi. rewrite (A i Hi). symmetry. apply A. destruct tbi; cbn; lia. }
  split; [assumption|]. split.
  - intros <-. assumption.
  - intros H. now apply Strip_canonical with bottom_pac_bit tbi.
Qed.

Lemma Strip_returns_canonical_witness :
  exists stripped,
    Strip 0x1234567812345678 39 false = Some stripped /\
    canonical stripped 39 false = true /\
    (stripped = 0x1234567812345678 <-> canonical 0x1234567812345678 39 false = true).
Proof.
  apply (Strip_returns_canonical 0x1234567812345678 39 false). lia.
Defined.

Lemma land_word_r x mask : 0 <= mask < 2 ^ 64 -> 0 <= Z.land x mask < 2 ^ 64.
Proof.
  intros Hm. apply word64_of_bits. intros i Hi.
  rewrite Z.land_spec, (word64_high mask) by assumption. apply andb_false_r.
Qed.

Lemma land_word_l x y : 0 <= x < 2 ^ 64 -> 0 <= Z.land x y < 2 ^ 64.
Proof. intros Hx. rewrite Z.land_comm. now apply land_word_r. Qed.

Lemma lor_word x y : 0 <= x < 2 ^ 64 -> 0 <= y < 2 ^ 64 -> 0 <= Z.lor x y < 2 ^ 64.
Proof.
  intros Hx Hy. apply word64_of_bits. intros i Hi.
  now rewrite Z.lor_spec, !word64_high.
Qed.

Lemma Strip_word ptr bottom_pac_bit tbi stripped :
  0 <= ptr < 2 ^ 64 -> Strip ptr bottom_pac_bit tbi = Some stripped ->
  0 <= stripped < 2 ^ 64.
Proof.
  intros Hp ES. apply word64_of_bits. intros i Hi.
  rewrite (Strip_testbit _ _ _ _ i ES), in_field_high by assumption.
  now apply word64_high.
Qed.

Lemma write_code_word x sh code :
  0 <= x < 2 ^ 64 -> 0 <= sh <= 62 -> 0 <= code < 4 ->
  0 <= Z.lor (Z.land x (Z.lnot (Z.shiftl 3 sh))) (Z.shiftl code sh) < 2 ^ 64.
Proof.
  intros Hx Hs Hc. apply word64_of_bits. intros i Hi.
  rewrite write_error_other by lia. now apply word64_high.
Qed.

(** X4: on a 64-bit pointer, [Strip], [AddPAC] and [Auth] return 64-bit
    values: no bit above bit 63 is ever set, whatever the key and the
    modifier are. *)
Theorem pauth_results_are_words ptr k_hi k_lo b_key modifier bottom_pac_bit tbi ehp ehp2 :
  0 <= ptr < 2 ^ 64 ->
  0 <= bottom_pac_bit <= 55 ->
  exists stripped signed authed,
    Strip ptr bottom_pac_bit tbi = Some stripped /\
    AddPAC ptr k_hi k_lo modifier bottom_pac_bit tbi ehp ehp2 = Some signed /\
    Auth ptr k_hi k_lo b_key modifier bottom_pac_bit tbi ehp2 = Some authed /\
    0 <= stripped < 2 ^ 64 /\ 0 <= signed < 2 ^ 64 /\ 0 <= authed < 2 ^ 64.
Proof.
  intros Hp Hb.
  destruct (Strip_defined ptr bottom_pac_bit tbi Hb) as [orig ES].
  destruct (PACMask_defined bottom_pac_bit tbi Hb) as [mask EM].
  pose proof (PACMask_range _ _ _ EM) as Hm.
  pose proof (Strip_word _ _ _ _ Hp ES) as Ho.
  rewrite (AddPAC_eq _ k_hi k_lo modifier _ _ ehp ehp2 _ _ ES EM).
  rewrite (Auth_eq _ k_hi k_lo b_key modifier _ _ ehp2 _ _ ES EM).
  cbv zeta. exists orig. eexists. eexists.
  split; [assumption|]. split; [reflexivity|]. split; [reflexivity|].
  split; [assumption|]. split.
  - destruct ehp2.
    + apply lxor_word; [assumption | now apply land_word_r].
    + apply lor_word; [now apply land_word_l | now apply land_word_r].
  - destruct ehp2.
    + apply lxor_word; [assumption | now apply land_word_r].
    + destruct (negb _); [|assumption].
      apply write_code_word; [assumption | destruct tbi; cbn; lia
                             | destruct b_key; cbn; lia].
Qed.

Lemma pauth_results_are_words_witness :
  exists stripped signed authed,
    Strip 0xfedcba9876543210 39 true = Some stripped /\
    AddPAC 0xfedcba9876543210 1 2 3 39 true false false = Some signed /\
    Auth 0xfedcba9876543210 1 2 true 3 39 true false = Some authed /\
    0 <= stripped < 2 ^ 64 /\ 0 <= signed < 2 ^ 64 /\ 0 <= authed < 2 ^ 64.
Proof.
  apply (pauth_results_are_words 0xfedcba9876543210 1 2 true 3 39 true false false); lia.
Defined.

(** X5: stripping a signed pointer gives the same result as stripping the
    pointer that was signed, for every key, modifier and flag combination. *)
Theorem Strip_AddPAC ptr k_hi k_lo modifier bottom_pac_bit tbi ehp ehp2 :
  0 <= bottom_pac_bit <= 55 ->
  exists signed stripped,
    AddPAC ptr k_hi k_lo modifier bottom_pac_bit tbi ehp ehp2 = Some signed /\
    Strip ptr bottom_pac_bit tbi = Some stripped /\
    Strip signed bottom_pac_bit tbi = Some stripped.
Proof.
  intros Hb.
  destruct (Strip_defined ptr bottom_pac_bit tbi Hb) as [orig ES].
  destruct (PACMask_defined bottom_pac_bit tbi Hb) as [mask EM].
  rewrite (AddPAC_eq _ k_hi k_lo modifier _ _ ehp ehp2 _ _ ES EM). cbv zeta.
  eexists. exists orig. split; [reflexivity|]. split; [assumption|].
  now rewrite Strip_after_insert by eassumption.
Qed.

Lemma Strip_AddPAC_witness :
  exists signed stripped,
    AddPAC 0x0012345678abcdef 7 9 5 39 false true false = Some signed /\
    Strip 0x0012345678abcdef 39 false = Some stripped /\
    Strip signed 39 false = Some stripped.
Proof.
  apply (Strip_AddPAC 0x0012345678abcdef 7 9 5 39 false true false). lia.
Defined.

(** X6: with EnhancedPAC2 and without EnhancedPAC, [AddPAC] computes the same
    value as [Auth] (for either key family), so signing is its own inverse
    and [Auth] recovers every signed pointer exactly, canonical or not. *)
Theorem enhanced_pac2_sign_is_auth ptr k_hi k_lo b_key modifier bottom_pac_bit tbi :
  0 <= bottom_pac_bit <= 55 ->
  exists signed,
    AddPAC ptr k_hi k_lo modifier bottom_pac_bit tbi false true = Some signed /\
    Auth ptr k_hi k_lo b_key modifier bottom_pac_bit tbi true = Some signed /\
    AddPAC signed k_hi k_lo modifier bottom_pac_bit tbi false true = Some ptr /\
    Auth signed k_hi k_lo b_key modifier bottom_pac_bit tbi true = Some ptr.
Proof.
  intros Hb.
  destruct (Strip_defined ptr bottom_pac_bit tbi Hb) as [orig ES].
  destruct (PACMask_defined bottom_pac_bit tbi Hb) as [mask EM].
  set (pac := modified_prince orig k_hi k_lo modifier).
  assert (ES' : Strip (Z.lxor ptr (Z.land pac mask)) bottom_pac_bit tbi = Some orig).
  { rewrite <- ES. apply (Strip_after_insert ptr pac mask bottom_pac_bit tbi true EM). }
  exists (Z.lxor ptr (Z.land pac mask)).
  rewrite (AddPAC_eq _ k_hi k_lo modifier _ _ false true _ _ ES EM).
  rewrite (Auth_eq _ k_hi k_lo b_key modifier _ _ true _ _ ES EM).
  rewrite (AddPAC_eq _ k_hi k_lo modifier _ _ false true _ _ ES' EM).
  rewrite (Auth_eq _ k_hi k_lo b_key modifier _ _ true _ _ ES' EM).
  cbv zeta. rewrite !andb_false_r. fold pac.
  rewrite Z.lxor_assoc, Z.lxor_nilpotent, Z.lxor_0_r. repeat split.
Qed.

Lemma enhanced_pac2_sign_is_auth_witness :
  exists signed,
    AddPAC 0x1234567812345678 7 9 5 39 false false true = Some signed /\
    Auth 0x1234567812345678 7 9 true 5 39 false true = Some signed /\
    AddPAC signed 7 9 5 39 false false true = Some 0x1234567812345678 /\
    Auth signed 7 9 true 5 39 false true = Some 0x1234567812345678.
Proof.
  apply (enhanced_pac2_sign_is_auth 0x1234567812345678 7 9 true 5 39 false). lia.
Defined.

(** X7: with EnhancedPAC, the signature of a poisoned pointer does not depend
    on the key or the modifier: the PAC field is cleared, or, with
    EnhancedPAC2 as well, the pointer is returned as it is. *)
Theorem enhanced_pac_poisoned ptr bottom_pac_bit tbi ehp2 :
  0 <= bottom_pac_bit <= 55 ->
  canonical ptr bottom_pac_bit tbi = false ->
  exists pac_mask,
    _PACMask bottom_pac_bit tbi = Some pac_mask /\
    forall k_hi k_lo modifier,
      AddPAC ptr k_hi k_lo modifier bottom_pac_bit tbi true ehp2
      = Some (if ehp2 then ptr else Z.land ptr (Z.lnot pac_mask)).
Proof.
  intros Hb Hc.
  destruct (Strip_defined ptr bottom_pac_bit tbi Hb) as [orig ES].
  destruct (PACMask_defined bottom_pac_bit tbi Hb) as [mask EM].
  exists mask. split; [assumption|]. intros k_hi k_lo modifier.
  rewrite (AddPAC_eq _ k_hi k_lo modifier _ _ true ehp2 _ _ ES EM).
  rewrite Hc. cbn [negb andb]. cbv zeta. rewrite Z.land_0_l.
  destruct ehp2; [now rewrite Z.lxor_0_r | now rewrite Z.lor_0_r].
Qed.

Lemma enhanced_pac_poisoned_witness :
  exists pac_mask,
    _PACMask 39 true = Some pac_mask /\
    forall k_hi k_lo modifier,
      AddPAC 0x0040000012345678 k_hi k_lo modifier 39 true true false
      = Some (if false then 0x0040000012345678
              else Z.land 0x0040000012345678 (Z.lnot pac_mask)).
Proof.
  apply (enhanced_pac_poisoned 0x0040000012345678 39 true false).
  - lia.
  - vm_compute. reflexivity.
Defined.

Lemma Strip_is_canonical ptr bottom_pac_bit tbi stripped :
  Strip ptr bottom_pac_bit tbi = Some stripped ->
  canonical stripped bottom_pac_bit tbi = true.
Proof.
  intros ES. pose proof (Strip_Some _ _ _ _ ES) as (mask & EM & _).
  pose proof (PACMask_Some _ _ _ EM) as [Hb _].
  apply canonical_spec.
  assert (A : forall i, bottom_pac_bit <= i <= top_bit tbi ->
                        Z.testbit stripped i = Z.testbit ptr 55).
  { intros i Hi. rewrite (Strip_testbit _ _ _ _ i ES).
    destruct (Z.eq_dec i 55) as [->|Hne]; [now rewrite in_field_55|].
    now rewrite extension_in_field. }
  intros i Hi. rewrite (A i Hi). symmetry. apply A. destruct tbi; cbn; lia.
Qed.

Lemma write_code_bits x sh code :
  0 <= sh -> 0 <= code < 4 ->
  Z.testbit (Z.lor (Z.land x (Z.lnot (Z.shiftl 3 sh))) (Z.shiftl code sh)) sh
  = Z.testbit code 0 /\
  Z.testbit (Z.lor (Z.land x (Z.lnot (Z.shiftl 3 sh))) (Z.shiftl code sh)) (sh + 1)
  = Z.testbit code 1.
Proof.
  intros Hs Hc. pose proof (write_error_field x sh code Hs Hc) as E.
  split.
  - apply (f_equal (fun z => Z.testbit z 0)) in E.
    rewrite Z.land_spec, Z.shiftr_spec in E by lia. cbn in E.
    now rewrite andb_true_r in E.
  - apply (f_equal (fun z => Z.testbit z 1)) in E.
    rewrite Z.land_spec, Z.shiftr_spec in E by lia. cbn in E.
    rewrite andb_true_r in E. now rewrite Z.add_comm.
Qed.

Lemma error_code_in_field bottom_pac_bit tbi :
  0 <= bottom_pac_bit <= 55 -> tbi = false \/ bottom_pac_bit <= 53 ->
  in_field bottom_pac_bit tbi (error_code_shift tbi) = true /\
  in_field bottom_pac_bit tbi (error_code_shift tbi + 1) = true.
Proof.
  intros Hb H. split; apply extension_in_field;
    destruct tbi; cbn; destruct H as [H|H]; try discriminate H; lia.
Qed.

(** X8: without EnhancedPAC2, when the error-code bits lie inside the PAC
    field ([tbi] false, or [bottom_pac_bit] at most 53), the pointer that
    [Auth] returns is canonical exactly when the PAC bits of the input match
    the recomputed code; in that case it is the stripped pointer, for either
    key family. *)
Theorem Auth_canonical_iff_accepted ptr k_hi k_lo b_key modifier bottom_pac_bit tbi :
  0 <= bottom_pac_bit <= 55 ->
  tbi = false \/ bottom_pac_bit <= 53 ->
  exists original_ptr pac_mask ret,
    Strip ptr bottom_pac_bit tbi = Some original_ptr /\
    _PACMask bottom_pac_bit tbi = Some pac_mask /\
    Auth ptr k_hi k_lo b_key modifier bottom_pac_bit tbi false = Some ret /\
    (Z.land ptr pac_mask
       = Z.land (modified_prince original_ptr k_hi k_lo modifier) pac_mask ->
     ret = original_ptr) /\
    (canonical ret bottom_pac_bit tbi = true <->
     Z.land ptr pac_mask
       = Z.land (modified_prince original_ptr k_hi k_lo modifier) pac_mask).
Proof.
  intros Hb Hin.
  destruct (Strip_defined ptr bottom_pac_bit tbi Hb) as [orig ES].
  destruct (PACMask_defined bottom_pac_bit tbi Hb) as [mask EM].
  exists orig, mask.
  rewrite (Auth_eq _ k_hi k_lo b_key modifier _ _ false _ _ ES EM). cbv zeta.
  eexists. split; [assumption|]. split; [assumption|]. split; [reflexivity|].
  destruct (Z.eqb_spec (Z.land ptr mask)
              (Z.land (modified_prince orig k_hi k_lo modifier) mask)) as [E|E];
    cbn [negb].
  - split; [reflexivity|]. split; [trivial|].
    intros _. now apply Strip_is_canonical with ptr.
  - split; [contradiction|]. split; [|contradiction].
    intros Hc. exfalso. pose proof (proj1 (canonical_spec _ _ _) Hc) as Hbits.
    destruct (error_code_in_field bottom_pac_bit tbi Hb Hin) as [F0 F1].
    apply in_field_extension in F0; [|lia]. apply in_field_extension in F1; [|lia].
    pose proof (Hbits _ (proj1 F0)) as B0. pose proof (Hbits _ (proj1 F1)) as B1.
    destruct (write_code_bits orig (error_code_shift tbi) (error_code b_key))
      as [C0 C1]; [destruct tbi; cbn; lia | destruct b_key; cbn; lia |].
    rewrite <- B1, C0, C1 in B0. destruct b_key; discriminate B0.
Qed.

Lemma Auth_canonical_iff_accepted_witness :
  exists original_ptr pac_mask ret,
    Strip 0x1234567812345678 39 false = Some original_ptr /\
    _PACMask 39 false = Some pac_mask /\
    Auth 0x1234567812345678 1 2 true 3 39 false false = Some ret /\
    (Z.land 0x1234567812345678 pac_mask
       = Z.land (modified_prince original_ptr 1 2 3) pac_mask ->
     ret = original_ptr) /\
    (canonical ret 39 false = true <->
     Z.land 0x1234567812345678 pac_mask
       = Z.land (modified_prince original_ptr 1 2 3) pac_mask).
Proof.
  apply (Auth_canonical_iff_accepted 0x1234567812345678 1 2 true 3 39 false).
  - lia.
  - left. reflexivity.
Defined.

(** X9: when the error-code bits lie inside the PAC field ([tbi] false, or
    [bottom_pac_bit] at most 53), [Auth] leaves every bit outside the PAC mask
    as it was, whether it accepts the pointer or not and with or without
    EnhancedPAC2. *)
Theorem Auth_frame ptr k_hi k_lo b_key modifier bottom_pac_bit tbi ehp2 :
  0 <= bottom_pac_bit <= 55 ->
  tbi = false \/ bottom_pac_bit <= 53 ->
  exists pac_mask ret,
    _PACMask bottom_pac_bit tbi = Some pac_mask /\
    Auth ptr k_hi k_lo b_key modifier bottom_pac_bit tbi ehp2 = Some ret /\
    forall i, Z.testbit pac_mask i = false -> Z.testbit ret i = Z.testbit ptr i.
Proof.
  intros Hb Hin.
  destruct (Strip_defined ptr bottom_pac_bit tbi Hb) as [orig ES].
  destruct (PACMask_defined bottom_pac_bit tbi Hb) as [mask EM].
  pose proof (PACMask_Some _ _ _ EM) as [_ Hm].
  exists mask.
  rewrite (Auth_eq _ k_hi k_lo b_key modifier _ _ ehp2 _ _ ES EM). cbv zeta.
  eexists. split; [assumption|]. split; [reflexivity|].
  intros i Hi. rewrite Hm in Hi.
  assert (Ho : Z.testbit orig i = Z.testbit ptr i)
    by now rewrite (Strip_testbit _ _ _ _ i ES), Hi.
  destruct ehp2.
  - apply (insert_pac_outside ptr _ mask bottom_pac_bit tbi true i Hm Hi).
  - destruct (negb _); [|assumption].
    destruct (error_code_in_field bottom_pac_bit tbi Hb Hin) as [F0 F1].
    rewrite write_error_other; [assumption | destruct tbi; cbn; lia
                               | destruct b_key; cbn; lia | |];
      intros ->; congruence.
Qed.

Lemma Auth_frame_witness :
  exists pac_mask ret,
    _PACMask 39 true = Some pac_mask /\
    Auth 0x1234567812345678 1 2 true 3 39 true false = Some ret /\
    forall i, Z.testbit pac_mask i = false ->
              Z.testbit ret i = Z.testbit 0x1234567812345678 i.
Proof.
  apply (Auth_frame 0x1234567812345678 1 2 true 3 39 true false).
  - lia.
  - right. lia.
Defined.

Lemma land_lxor_distr a d mask :
  Z.land (Z.lxor a d) mask = Z.lxor (Z.land a mask) (Z.land d mask).
Proof.
  bitwise i.
  destruct (Z.testbit a i), (Z.testbit d i), (Z.testbit mask i); reflexivity.
Qed.

Lemma lxor_fixed x d : Z.lxor x d = x -> d = 0.
Proof.
  intros H. apply (f_equal (Z.lxor x)) in H.
  now rewrite <- Z.lxor_assoc, Z.lxor_nilpotent, Z.lxor_0_l in H.
Qed.

Lemma Strip_after_tamper ptr d pac_mask bottom_pac_bit tbi :
  _PACMask bottom_pac_bit tbi = Some pac_mask ->
  Z.land d pac_mask = d ->
  Strip (Z.lxor ptr d) bottom_pac_bit tbi = Strip ptr bottom_pac_bit tbi.
Proof.
  intros EM Hd. apply PACMask_Some in EM. destruct EM as [_ Hm].
  apply Strip_ext. intros i Hi.
  rewrite Z.lxor_spec, <- Hd, Z.land_spec, Hm, Hi, andb_false_r. apply xorb_false_r.
Qed.

(** X10: without EnhancedPAC2, any change confined to the PAC field of a
    signed canonical pointer is detected: [Auth] writes the key's error code
    into the result. *)
Theorem tampered_pac_is_rejected ptr k_hi k_lo b_key modifier bottom_pac_bit tbi ehp
    pac_mask d :
  0 <= bottom_pac_bit <= 55 ->
  canonical ptr bottom_pac_bit tbi = true ->
  _PACMask bottom_pac_bit tbi = Some pac_mask ->
  Z.land d pac_mask = d ->
  d <> 0 ->
  exists signed ret,
    AddPAC ptr k_hi k_lo modifier bottom_pac_bit tbi ehp false = Some signed /\
    Auth (Z.lxor signed d) k_hi k_lo b_key modifier bottom_pac_bit tbi false = Some ret /\
    error_field tbi ret = error_code b_key /\
    error_field tbi ret <> 0.
Proof.
  intros Hb Hc EM Hd Hnz.
  destruct (Strip_defined ptr bottom_pac_bit tbi Hb) as [orig ES].
  rewrite (AddPAC_eq _ k_hi k_lo modifier _ _ ehp false _ _ ES EM).
  rewrite Hc. cbn [negb andb]. cbv zeta.
  set (pac := modified_prince orig k_hi k_lo modifier).
  set (signed := Z.lor (Z.land ptr (Z.lnot pac_mask)) (Z.land pac pac_mask)).
  assert (ES' : Strip (Z.lxor signed d) bottom_pac_bit tbi = Some orig).
  { rewrite (Strip_after_tamper _ _ _ _ _ EM Hd). subst signed.
    rewrite <- ES. apply (Strip_after_insert ptr pac pac_mask _ _ false EM). }
  exists signed. eexists. split; [reflexivity|].
  rewrite (Auth_eq _ k_hi k_lo b_key modifier _ _ false _ _ ES' EM). cbv zeta.
  fold pac.
  assert (Hne : Z.land (Z.lxor signed d) pac_mask <> Z.land pac pac_mask).
  { rewrite land_lxor_distr, Hd. subst signed. rewrite overwritten_field.
    intros F. now apply lxor_fixed in F. }
  apply Z.eqb_neq in Hne. rewrite Hne. cbn [negb].
  split; [reflexivity|].
  assert (E : error_field tbi
                (Z.lor (Z.land orig (Z.lnot (Z.shiftl 3 (error_code_shift tbi))))
                       (Z.shiftl (error_code b_key) (error_code_shift tbi)))
              = error_code b_key).
  { unfold error_field. apply write_error_field; destruct tbi, b_key; cbn; lia. }
  split; [exact E|]. rewrite E. destruct b_key; discriminate.
Qed.

Lemma tampered_pac_is_rejected_witness :
  exists signed ret,
    AddPAC 0x0000000012345678 1 2 3 39 true false false = Some signed /\
    Auth (Z.lxor signed 0x0000010000000000) 1 2 true 3 39 true false = Some ret /\
    error_field true ret = error_code true /\
    error_field true ret <> 0.
Proof.
  apply (tampered_pac_is_rejected 0x0000000012345678 1 2 true 3 39 true false
           0x007fff8000000000 0x0000010000000000).
  - lia.
  - vm_compute. reflexivity.
  - reflexivity.
  - reflexivity.
  - discriminate.
Defined.

(** X11: with EnhancedPAC2, a change [d] confined to the PAC field of a signed
    canonical pointer comes out of [Auth] as the same change of the original
    pointer, which is then no longer canonical. *)
Theorem tampered_pac_poisons ptr k_hi k_lo b_key modifier bottom_pac_bit tbi ehp
    pac_mask d :
  0 <= bottom_pac_bit <= 55 ->
  canonical ptr bottom_pac_bit tbi = true ->
  _PACMask bottom_pac_bit tbi = Some pac_mask ->
  Z.land d pac_mask = d ->
  d <> 0 ->
  exists signed,
    AddPAC ptr k_hi k_lo modifier bottom_pac_bit tbi ehp true = Some signed /\
    Auth (Z.lxor signed d) k_hi k_lo b_key modifier bottom_pac_bit tbi true
    = Some (Z.lxor ptr d) /\
    canonical (Z.lxor ptr d) bottom_pac_bit tbi = false.
Proof.
  intros Hb Hc EM Hd Hnz.
  destruct (Strip_defined ptr bottom_pac_bit tbi Hb) as [orig ES].
  pose proof (PACMask_Some _ _ _ EM) as [_ Hm].
  pose proof (PACMask_range _ _ _ EM) as Hmr.
  rewrite (AddPAC_eq _ k_hi k_lo modifier _ _ ehp true _ _ ES EM).
  rewrite Hc. cbn [negb andb]. cbv zeta.
  set (pac := modified_prince orig k_hi k_lo modifier).
  assert (ES' : Strip (Z.lxor (Z.lxor ptr (Z.land pac pac_mask)) d) bottom_pac_bit tbi
                = Some orig).
  { rewrite (Strip_after_tamper _ _ _ _ _ EM Hd).
    rewrite <- ES. apply (Strip_after_insert ptr pac pac_mask _ _ true EM). }
  eexists. split; [reflexivity|]. split.
  - rewrite (Auth_eq _ k_hi k_lo b_key modifier _ _ true _ _ ES' EM). cbv zeta.
    fold pac. f_equal. bitwise i.
    destruct (Z.testbit ptr i), (Z.testbit pac i), (Z.testbit pac_mask i),
             (Z.testbit d i); reflexivity.
  - destruct (canonical (Z.lxor ptr d) bottom_pac_bit tbi) eqn:Hc'; [exfalso|reflexivity].
    pose proof (proj1 (canonical_spec _ _ _) Hc) as Hp.
    pose proof (proj1 (canonical_spec _ _ _) Hc') as Hq.
    assert (Hdn : 0 < d).
    { assert (0 <= d); [|lia]. rewrite <- Hd. apply Z.land_nonneg. lia. }
    assert (Hj : Z.testbit d (Z.log2 d) = true) by (apply Z.bit_log2; exact Hdn).
    assert (Fj : in_field bottom_pac_bit tbi (Z.log2 d) = true).
    { assert (Hj' : Z.testbit (Z.land d pac_mask) (Z.log2 d) = true)
        by (rewrite Hd; exact Hj).
      rewrite Z.land_spec, Hm in Hj'. apply andb_true_iff in Hj'. exact (proj2 Hj'). }
    apply in_field_extension in Fj; [|lia]. destruct Fj as [Rj _].
    assert (R55 : bottom_pac_bit <= 55 <= top_bit tbi) by (destruct tbi; cbn; lia).
    assert (D55 : Z.testbit d 55 = false).
    { rewrite <- Hd, Z.land_spec, Hm, in_field_55. apply andb_false_r. }
    pose proof (Hq _ Rj) as Q1. rewrite <- (Hq _ R55) in Q1.
    rewrite !Z.lxor_spec, Hj, D55, (Hp _ Rj), <- (Hp _ R55) in Q1.
    destruct (Z.testbit ptr 55); discriminate Q1.
Qed.

Lemma tampered_pac_poisons_witness :
  exists signed,
    AddPAC 0x0000000012345678 1 2 3 39 true false true = Some signed /\
    Auth (Z.lxor signed 0x0000010000000000) 1 2 true 3 39 true true
    = Some (Z.lxor 0x0000000012345678 0x0000010000000000) /\
    canonical (Z.lxor 0x0000000012345678 0x0000010000000000) 39 true = false.
Proof.
  apply (tampered_pac_poisons 0x0000000012345678 1 2 true 3 39 true false
           0x007fff8000000000 0x0000010000000000).
  - lia.
  - vm_compute. reflexivity.
  - reflexivity.
  - reflexivity.
  - discriminate.
Defined.

End MorePointerAuthentication.

(** * Further properties of the cipher and of the key derivation *)

Section MoreCipher.
Import Prince AppleKdf.

(** X12: on 64-bit states the substitution layer [s] and [s_inv] are inverse
    to each other, in both orders. *)
Theorem s_round_trip state :
  0 <= state < 2 ^ 64 -> s_inv (s state) = state /\ s (s_inv state) = state.
Proof.
  intros H. split; [now apply s_inv_s | now apply s_s_inv].
Qed.

Lemma s_round_trip_witness :
  s_inv (s 0xfedcba9876543210) = 0xfedcba9876543210 /\
  s (s_inv 0xfedcba9876543210) = 0xfedcba9876543210.
Proof. apply (s_round_trip 0xfedcba9876543210). lia. Defined.

(** X13: on 64-bit states the nybble permutation [sr] and [sr_inv] are inverse
    to each other, in both orders. *)
Theorem sr_round_trip state :
  0 <= state < 2 ^ 64 -> sr_inv (sr state) = state /\ sr (sr_inv state) = state.
Proof.
  intros H. split; [now apply sr_inv_sr | now apply sr_sr_inv].
Qed.

Lemma sr_round_trip_witness :
  sr_inv (sr 0xfedcba9876543210) = 0xfedcba9876543210 /\
  sr (sr_inv 0xfedcba9876543210) = 0xfedcba9876543210.
Proof. apply (sr_round_trip 0xfedcba9876543210). lia. Defined.

(** X14: on 64-bit states the mixing layer [m] and [m_inv] are inverse to each
    other, in both orders. *)
Theorem m_round_trip state :
  0 <= state < 2 ^ 64 -> m_inv (m state) = state /\ m (m_inv state) = state.
Proof.
  intros H. split; [now apply m_inv_m | now apply m_m_inv].
Qed.

Lemma m_round_trip_witness :
  m_inv (m 0xfedcba9876543210) = 0xfedcba9876543210 /\
  m (m_inv 0xfedcba9876543210) = 0xfedcba9876543210.
Proof. apply (m_round_trip 0xfedcba9876543210). lia. Defined.

Lemma nyb_mod j x : 0 <= j <= 60 -> nyb j (x mod 2 ^ 64) = nyb j x.
Proof.
  intros Hj. apply Z.bits_inj'. intros i Hi.
  rewrite !nyb_testbit by lia.
  destruct (Z.ltb_spec i 4); [|now rewrite !andb_false_r].
  now rewrite Z.mod_pow2_bits_low by lia.
Qed.

Lemma lor_fold_ext (f g : Z -> Z) l : forall a,
  (forall i, In i l -> f i = g i) ->
  fold_left (fun ret i => Z.lor ret (f i)) l a
  = fold_left (fun ret i => Z.lor ret (g i)) l a.
Proof.
  induction l as [|i l IH]; intros a H; [reflexivity|].
  cbn [fold_left]. rewrite (H i) by now left. apply IH. intros; apply H; now right.
Qed.

Lemma substitute_mod tbl x : substitute tbl (x mod 2 ^ 64) = substitute tbl x.
Proof.
  unfold substitute.
  apply (lor_fold_ext (fun i => Z.shiftl (tbl (nyb i (x mod 2 ^ 64))) i)
                      (fun i => Z.shiftl (tbl (nyb i x)) i)).
  intros i Hi. apply In_range4 in Hi.
  rewrite nyb_mod; [reflexivity | Z.div_mod_to_equations; lia].
Qed.

Lemma permute_mod src x :
  (forall n, 0 <= n < 16 -> 0 <= src n < 16) ->
  permute src (x mod 2 ^ 64) = permute src x.
Proof.
  intros Hsrc. unfold permute, set_nybble, extract_nybble.
  apply (lor_fold_ext
           (fun i => Z.shiftl (nyb ((15 - src i) * 4) (x mod 2 ^ 64)) ((15 - i) * 4))
           (fun i => Z.shiftl (nyb ((15 - src i) * 4) x) ((15 - i) * 4))).
  intros i Hi. apply In_range in Hi. pose proof (Hsrc i ltac:(lia)).
  rewrite nyb_mod; [reflexivity | lia].
Qed.

Lemma xor_rows_state_ext rows l x y : forall acc,
  (forall i, In i l -> bit_of x i = bit_of y i) ->
  xor_rows rows l x acc = xor_rows rows l y acc.
Proof.
  induction l as [|i l IH]; intros acc H; [reflexivity|].
  unfold xor_rows in *. cbn [fold_left].
  rewrite (H i) by now left. apply IH. intros; apply H; now right.
Qed.

Lemma m_prime_mod x : m_prime (x mod 2 ^ 64) = m_prime x.
Proof.
  rewrite (m_prime_xor_rows (x mod 2 ^ 64)), (m_prime_xor_rows x).
  apply xor_rows_state_ext.
  intros i Hi. apply (range_bits 64) in Hi; [|lia].
  rewrite !bit_of_b2z by assumption.
  now rewrite Z.mod_pow2_bits_low by lia.
Qed.

(** X15: the layers of the cipher read only the 64 low bits of their
    argument and always return a 64-bit value, also for an argument that is
    wider than 64 bits or negative. *)
Theorem layers_are_64_bit state :
  (s (state mod 2 ^ 64) = s state /\ 0 <= s state < 2 ^ 64) /\
  (s_inv (state mod 2 ^ 64) = s_inv state /\ 0 <= s_inv state < 2 ^ 64) /\
  (sr (state mod 2 ^ 64) = sr state /\ 0 <= sr state < 2 ^ 64) /\
  (sr_inv (state mod 2 ^ 64) = sr_inv state /\ 0 <= sr_inv state < 2 ^ 64) /\
  (m_prime (state mod 2 ^ 64) = m_prime state /\ 0 <= m_prime state < 2 ^ 64).
Proof.
  split; [split; [rewrite (s_substitute (state mod 2 ^ 64)), (s_substitute state); apply substitute_mod | apply s_word]|].
  split; [split; [rewrite (s_inv_substitute (state mod 2 ^ 64)), (s_inv_substitute state); apply substitute_mod | apply s_inv_word]|].
  split; [split; [rewrite (sr_permute (state mod 2 ^ 64)), (sr_permute state); apply permute_mod, SR_getitem_range
                 | apply sr_word]|].
  split; [split; [rewrite (sr_inv_permute (state mod 2 ^ 64)), (sr_inv_permute state); apply permute_mod, SR_index_range
                 | apply sr_inv_word]|].
  split; [apply m_prime_mod | apply m_prime_word].
Qed.

Lemma nyb_lxor j x y : nyb j (Z.lxor x y) = Z.lxor (nyb j x) (nyb j y).
Proof.
  unfold nyb. rewrite Z.shiftr_lxor. bitwise i.
  destruct (Z.testbit (Z.shiftr x j) i), (Z.testbit (Z.shiftr y j) i), (Z.testbit 15 i);
    reflexivity.
Qed.

Lemma permute_lxor src x y :
  (forall n, 0 <= n < 16 -> 0 <= src n < 16) ->
  permute src (Z.lxor x y) = Z.lxor (permute src x) (permute src y).
Proof.
  intros Hsrc.
  apply nybbles_ext;
    [now apply permute_word
    | apply lxor_word; now apply permute_word |].
  intros j Hj. destruct (nybble_slot j Hj) as (i & Hi & ->).
  rewrite nyb_lxor, !permute_nyb by assumption. apply nyb_lxor.
Qed.

(** X16: the diffusion layers are linear over XOR: [m_prime], [sr], [sr_inv],
    [m] and [m_inv] all map the XOR of two states to the XOR of their
    images. *)
Theorem diffusion_is_linear x y :
  m_prime (Z.lxor x y) = Z.lxor (m_prime x) (m_prime y) /\
  sr (Z.lxor x y) = Z.lxor (sr x) (sr y) /\
  sr_inv (Z.lxor x y) = Z.lxor (sr_inv x) (sr_inv y) /\
  m (Z.lxor x y) = Z.lxor (m x) (m y) /\
  m_inv (Z.lxor x y) = Z.lxor (m_inv x) (m_inv y).
Proof.
  assert (Hsr : forall a b, sr (Z.lxor a b) = Z.lxor (sr a) (sr b)).
  { intros a b. rewrite (sr_permute (Z.lxor a b)), (sr_permute a), (sr_permute b).
    apply permute_lxor, SR_getitem_range. }
  assert (Hsri : forall a b, sr_inv (Z.lxor a b) = Z.lxor (sr_inv a) (sr_inv b)).
  { intros a b.
    rewrite (sr_inv_permute (Z.lxor a b)), (sr_inv_permute a), (sr_inv_permute b).
    apply permute_lxor, SR_index_range. }
  split; [apply m_prime_lxor|]. split; [apply Hsr|]. split; [apply Hsri|].
  split.
  - unfold m. cbv zeta. rewrite m_prime_lxor. apply Hsr.
  - unfold m_inv. cbv zeta. rewrite Hsri. apply m_prime_lxor.
Qed.

Lemma table_words l i :
  forallb (fun c => (0 <=? c) && (c <? 2 ^ 64)) l = true -> 0 <= getitem l i < 2 ^ 64.
Proof.
  intros H. unfold getitem. rewrite forallb_forall in H.
  destruct (Nat.lt_ge_cases (Z.to_nat i) (length l)) as [Hlt|Hge].
  - specialize (H _ (nth_In l 0 Hlt)). apply andb_true_iff in H. lia.
  - rewrite nth_overflow by assumption. lia.
Qed.

Lemma RC_Apple_word i : 0 <= getitem RC_Apple i < 2 ^ 64.
Proof. apply table_words. vm_compute. reflexivity. Qed.

Lemma lxor_inj_r a b c : Z.lxor a c = Z.lxor b c -> a = b.
Proof.
  intros H. apply (f_equal (fun z => Z.lxor z c)) in H.
  now rewrite !Z.lxor_assoc, Z.lxor_nilpotent, !Z.lxor_0_r in H.
Qed.

Lemma lxor_key_cancel a c k : Z.lxor (Z.lxor (Z.lxor (Z.lxor a c) k) k) c = a.
Proof.
  bitwise n.
  destruct (Z.testbit a n), (Z.testbit c n), (Z.testbit k n); reflexivity.
Qed.

Lemma lxor_key_cancel' a c k : Z.lxor (Z.lxor (Z.lxor (Z.lxor a k) c) c) k = a.
Proof.
  bitwise n.
  destruct (Z.testbit a n), (Z.testbit c n), (Z.testbit k n); reflexivity.
Qed.

(** Runs of rounds, for any round function that is injective on words. *)
Section InjectiveRuns.
Variable F : Z -> Z -> Z.
Hypothesis F_word : forall x i, 0 <= x < 2 ^ 64 -> 0 <= F x i < 2 ^ 64.
Hypothesis F_inj :
  forall x y i, 0 <= x < 2 ^ 64 -> 0 <= y < 2 ^ 64 -> F x i = F y i -> x = y.

Lemma run_word l : forall x, 0 <= x < 2 ^ 64 -> 0 <= fold_left F l x < 2 ^ 64.
Proof.
  induction l as [|i l IH]; intros x Hx; [assumption|].
  cbn [fold_left]. now apply IH, F_word.
Qed.

Lemma run_injective l : forall x y,
  0 <= x < 2 ^ 64 -> 0 <= y < 2 ^ 64 -> fold_left F l x = fold_left F l y -> x = y.
Proof.
  induction l as [|i l IH]; intros x y Hx Hy H; [assumption|].
  cbn [fold_left] in H. apply IH in H; [| now apply F_word | now apply F_word].
  now apply F_inj in H.
Qed.

End InjectiveRuns.

Section AnyRoundConstants.
Variable rc : list Z.
Hypothesis rc_word : forall i, 0 <= getitem rc i < 2 ^ 64.
Variable k1 : Z.
Hypothesis k1_word : 0 <= k1 < 2 ^ 64.

Lemma forward_round_word_rc state i : 0 <= forward_round k1 rc state i < 2 ^ 64.
Proof.
  unfold forward_round. cbv zeta.
  apply lxor_word; [apply lxor_word; [apply m_word | apply rc_word] | assumption].
Qed.

Lemma backward_round_word_rc state i : 0 <= backward_round k1 rc state i < 2 ^ 64.
Proof. unfold backward_round. apply s_inv_word. Qed.

Lemma backward_forward_same state i :
  0 <= state < 2 ^ 64 ->
  backward_round k1 rc (forward_round k1 rc state i) i = state.
Proof.
  intros Hs. unfold backward_round, forward_round. cbv zeta.
  rewrite lxor_key_cancel, m_inv_m by apply s_word. now apply s_inv_s.
Qed.

Lemma forward_backward_same state i :
  0 <= state < 2 ^ 64 ->
  forward_round k1 rc (backward_round k1 rc state i) i = state.
Proof.
  intros Hs. unfold backward_round, forward_round. cbv zeta.
  rewrite s_s_inv by apply m_inv_word.
  rewrite m_m_inv by (apply lxor_word; [now apply lxor_word | apply rc_word]).
  apply lxor_key_cancel'.
Qed.

Lemma forward_round_inj x y i :
  0 <= x < 2 ^ 64 -> 0 <= y < 2 ^ 64 ->
  forward_round k1 rc x i = forward_round k1 rc y i -> x = y.
Proof.
  intros Hx Hy H. apply (f_equal (fun z => backward_round k1 rc z i)) in H.
  now rewrite !backward_forward_same in H.
Qed.

Lemma backward_round_inj x y i :
  0 <= x < 2 ^ 64 -> 0 <= y < 2 ^ 64 ->
  backward_round k1 rc x i = backward_round k1 rc y i -> x = y.
Proof.
  intros Hx Hy H. apply (f_equal (fun z => forward_round k1 rc z i)) in H.
  now rewrite !forward_backward_same in H.
Qed.

Lemma prince_core_unfold_rc state :
  prince_core state k1 rc
  = Z.lxor (Z.lxor
      (fold_left (backward_round k1 rc) [6; 7; 8; 9; 10]
         (middle (fold_left (forward_round k1 rc) [1; 2; 3; 4; 5]
                    (Z.lxor (Z.lxor state k1) (getitem rc 0)))))
      (getitem rc 11)) k1.
Proof. unfold prince_core, middle. reflexivity. Qed.

Lemma prince_core_word state : 0 <= prince_core state k1 rc < 2 ^ 64.
Proof.
  rewrite prince_core_unfold_rc.
  apply lxor_word; [apply lxor_word; [|apply rc_word] | assumption].
  apply run_word; [intros; apply backward_round_word_rc | apply middle_word].
Qed.

Lemma prince_core_inj x y :
  0 <= x < 2 ^ 64 -> 0 <= y < 2 ^ 64 ->
  prince_core x k1 rc = prince_core y k1 rc -> x = y.
Proof.
  intros Hx Hy H. rewrite !prince_core_unfold_rc in H.
  apply lxor_inj_r, lxor_inj_r in H.
  assert (Wx : 0 <= Z.lxor (Z.lxor x k1) (getitem rc 0) < 2 ^ 64)
    by (apply lxor_word; [now apply lxor_word | apply rc_word]).
  assert (Wy : 0 <= Z.lxor (Z.lxor y k1) (getitem rc 0) < 2 ^ 64)
    by (apply lxor_word; [now apply lxor_word | apply rc_word]).
  apply run_injective in H;
    [| intros; apply backward_round_word_rc | apply backward_round_inj
     | apply middle_word | apply middle_word].
  apply (f_equal middle) in H.
  rewrite !middle_middle in H
    by (apply run_word; [intros; apply forward_round_word_rc | assumption]).
  apply run_injective in H;
    [| intros; apply forward_round_word_rc | apply forward_round_inj
     | assumption | assumption].
  now apply lxor_inj_r, lxor_inj_r in H.
Qed.

End AnyRoundConstants.

Lemma complement_word k0 : 0 <= k0 < 2 ^ 64 -> 0 <= complement k0 < 2 ^ 64.
Proof.
  intros Hk. unfold complement. cbv zeta.
  apply word64_of_bits. intros i Hi.
  rewrite Z.lxor_spec, Z.lor_spec, !Z.shiftr_spec, Z.shiftl_spec, Z.land_spec by lia.
  rewrite (word64_high k0 (i + 1)), (word64_high k0 (i + 63)) by lia.
  replace (Z.testbit 1 (i - 63)) with false; [now rewrite andb_false_r|].
  symmetry. apply small_high_bits with 1; lia.
Qed.

Lemma prince_word val k0 k1 rc :
  (forall i, 0 <= getitem rc i < 2 ^ 64) ->
  0 <= k0 < 2 ^ 64 -> 0 <= k1 < 2 ^ 64 ->
  0 <= prince val k0 k1 rc < 2 ^ 64.
Proof.
  intros Hrc Hk0 Hk1. rewrite prince_unfold.
  apply lxor_word; [now apply prince_core_word | now apply complement_word].
Qed.

Lemma prince_inj val val' k0 k1 rc :
  (forall i, 0 <= getitem rc i < 2 ^ 64) ->
  0 <= k0 < 2 ^ 64 -> 0 <= k1 < 2 ^ 64 ->
  0 <= val < 2 ^ 64 -> 0 <= val' < 2 ^ 64 ->
  prince val k0 k1 rc = prince val' k0 k1 rc -> val = val'.
Proof.
  intros Hrc Hk0 Hk1 Hv Hv' H. rewrite !prince_unfold in H.
  apply lxor_inj_r in H.
  apply prince_core_inj in H; [| assumption | assumption | | ]; try now apply lxor_word.
  now apply lxor_inj_r in H.
Qed.

Lemma modified_prince_word val k0 k1 modifier :
  0 <= k0 < 2 ^ 64 -> 0 <= k1 < 2 ^ 64 -> 0 <= modifier < 2 ^ 64 ->
  0 <= modified_prince val k0 k1 modifier < 2 ^ 64.
Proof.
  intros Hk0 Hk1 Hm. unfold modified_prince.
  apply prince_word; [apply RC_Apple_word | assumption | now apply lxor_word].
Qed.

Lemma modified_prince_inj val val' k0 k1 modifier :
  0 <= k0 < 2 ^ 64 -> 0 <= k1 < 2 ^ 64 -> 0 <= modifier < 2 ^ 64 ->
  0 <= val < 2 ^ 64 -> 0 <= val' < 2 ^ 64 ->
  modified_prince val k0 k1 modifier = modified_prince val' k0 k1 modifier ->
  val = val'.
Proof.
  intros Hk0 Hk1 Hm Hv Hv'. unfold modified_prince.
  apply prince_inj; trivial; [apply RC_Apple_word | now apply lxor_word].
Qed.

(** X17: under a 64-bit key and modifier, [modified_prince] (and [prince] with
    the table [RC]) maps 64-bit values to 64-bit values and never maps two
    different 64-bit values to the same result. *)
Theorem cipher_is_injective val val' k0 k1 modifier :
  0 <= k0 < 2 ^ 64 -> 0 <= k1 < 2 ^ 64 -> 0 <= modifier < 2 ^ 64 ->
  0 <= val < 2 ^ 64 -> 0 <= val' < 2 ^ 64 ->
  0 <= modified_prince val k0 k1 modifier < 2 ^ 64 /\
  0 <= prince val k0 k1 RC < 2 ^ 64 /\
  (modified_prince val k0 k1 modifier = modified_prince val' k0 k1 modifier ->
   val = val') /\
  (prince val k0 k1 RC = prince val' k0 k1 RC -> val = val').
Proof.
  intros Hk0 Hk1 Hm Hv Hv'.
  assert (HRC : forall i, 0 <= getitem RC i < 2 ^ 64)
    by (intros i; apply table_words; vm_compute; reflexivity).
  split; [now apply modified_prince_word|].
  split; [now apply prince_word|].
  split; [now apply modified_prince_inj | now apply prince_inj].
Qed.

Lemma cipher_is_injective_witness :
  0 <= modified_prince 5 1 2 3 < 2 ^ 64 /\
  0 <= prince 5 1 2 RC < 2 ^ 64 /\
  (modified_prince 5 1 2 3 = modified_prince 6 1 2 3 -> 5 = 6) /\
  (prince 5 1 2 RC = prince 6 1 2 RC -> 5 = 6).
Proof.
  apply (cipher_is_injective 5 6 1 2 3); lia.
Defined.

Lemma s_low_bits a b : a mod 2 ^ 64 = b mod 2 ^ 64 -> s a = s b.
Proof.
  intros H. rewrite (s_substitute a), (s_substitute b).
  rewrite <- (substitute_mod _ a), <- (substitute_mod _ b), H. reflexivity.
Qed.

Lemma lxor_low_bits a b c :
  a mod 2 ^ 64 = b mod 2 ^ 64 -> Z.lxor a c mod 2 ^ 64 = Z.lxor b c mod 2 ^ 64.
Proof.
  intros H. apply Z.bits_inj'. intros i Hi.
  destruct (Z.ltb_spec i 64) as [Hlt|Hge].
  - rewrite !Z.mod_pow2_bits_low, !Z.lxor_spec by lia. f_equal.
    apply (f_equal (fun z => Z.testbit z i)) in H.
    now rewrite !Z.mod_pow2_bits_low in H by lia.
  - now rewrite !Z.mod_pow2_bits_high by lia.
Qed.

Lemma first_step_ext (F : Z -> Z -> Z) i l a b :
  F a i = F b i -> fold_left F (i :: l) a = fold_left F (i :: l) b.
Proof. intros H. cbn [fold_left]. now rewrite H. Qed.

Lemma prince_core_low_bits a b k1 rc :
  a mod 2 ^ 64 = b mod 2 ^ 64 -> prince_core a k1 rc = prince_core b k1 rc.
Proof.
  intros H. rewrite (prince_core_unfold_rc rc k1 a), (prince_core_unfold_rc rc k1 b).
  rewrite (first_step_ext (forward_round k1 rc) 1 [2; 3; 4; 5]
             (Z.lxor (Z.lxor a k1) (getitem rc 0))
             (Z.lxor (Z.lxor b k1) (getitem rc 0)));
    [reflexivity|].
  unfold forward_round. cbv zeta.
  rewrite (s_low_bits (Z.lxor (Z.lxor a k1) (getitem rc 0))
                      (Z.lxor (Z.lxor b k1) (getitem rc 0)));
    [reflexivity|].
  now apply lxor_low_bits, lxor_low_bits.
Qed.

Lemma prince_low_bits val k0 k1 rc :
  prince (val mod 2 ^ 64) k0 k1 rc = prince val k0 k1 rc.
Proof.
  rewrite (prince_unfold (val mod 2 ^ 64)), (prince_unfold val).
  rewrite (prince_core_low_bits (Z.lxor (val mod 2 ^ 64) k0) (Z.lxor val k0));
    [reflexivity|].
  apply lxor_low_bits, Z.mod_mod. lia.
Qed.

(** X18: with a table of at least 12 round constants (as [prince_core]
    indexes it up to 11), [prince] reads only the 64 low bits of the value
    it encrypts, and so does [modified_prince]: a wider or a negative value
    gives the result of its residue modulo 2^64. *)
Theorem cipher_reads_low_bits val k0 k1 rc modifier :
  (12 <= length rc)%nat ->
  prince (val mod 2 ^ 64) k0 k1 rc = prince val k0 k1 rc /\
  modified_prince (val mod 2 ^ 64) k0 k1 modifier = modified_prince val k0 k1 modifier.
Proof.
  intros _.
  split; [apply prince_low_bits | unfold modified_prince; apply prince_low_bits].
Qed.

Lemma cipher_reads_low_bits_witness :
  prince ((2 ^ 64 + 5) mod 2 ^ 64) 1 2 RC = prince (2 ^ 64 + 5) 1 2 RC /\
  modified_prince ((2 ^ 64 + 5) mod 2 ^ 64) 1 2 3 = modified_prince (2 ^ 64 + 5) 1 2 3.
Proof.
  apply (cipher_reads_low_bits (2 ^ 64 + 5) 1 2 RC 3).
  vm_compute. apply le_n.
Defined.

Lemma modifier_low_bits usage :
  modifier1 (Z.land usage 15) = modifier1 usage /\
  modifier2 (Z.land usage 15) = modifier2 usage.
Proof.
  unfold modifier1, modifier2. rewrite <- !Z.land_assoc.
  change (Z.land 15 8) with 8. change (Z.land 15 7) with 7. split; reflexivity.
Qed.

(** X19: [kdf] reads only the four low bits of the usage code: any usage
    value gives the key of its residue modulo 16. *)
Theorem kdf_reads_low_usage_bits ikey_hi ikey_lo data_hi data_lo usage :
  kdf ikey_hi ikey_lo data_hi data_lo (Z.land usage 15)
  = kdf ikey_hi ikey_lo data_hi data_lo usage.
Proof.
  unfold kdf. cbv zeta. destruct (modifier_low_bits usage) as [-> ->]. reflexivity.
Qed.

(** X20: the modifiers that [kdf] derives from 4-bit usage codes are all
    different: the modifier of the high half never equals a modifier of the
    low half, and two different usage codes never share a modifier; all of
    them are below 64. *)
Theorem kdf_modifiers_are_distinct u v :
  0 <= u < 16 -> 0 <= v < 16 ->
  modifier1 u <> modifier2 v /\
  (u <> v -> modifier1 u <> modifier1 v /\ modifier2 u <> modifier2 v) /\
  0 <= modifier1 u < 64 /\ 0 <= modifier2 u < 64.
Proof.
  intros Hu Hv.
  assert (H : forall u, 0 <= u < 16 -> forall v, 0 <= v < 16 ->
    negb (modifier1 u =? modifier2 v)
    && ((u =? v) || (negb (modifier1 u =? modifier1 v)
                     && negb (modifier2 u =? modifier2 v)))
    && ((0 <=? modifier1 u) && (modifier1 u <? 64))
    && ((0 <=? modifier2 u) && (modifier2 u <? 64)) = true).
  { intros a Ha.
    apply (forall_range
             (fun a => forallb (fun b =>
                negb (modifier1 a =? modifier2 b)
                && ((a =? b) || (negb (modifier1 a =? modifier1 b)
                                 && negb (modifier2 a =? modifier2 b)))
                && ((0 <=? modifier1 a) && (modifier1 a <? 64))
                && ((0 <=? modifier2 a) && (modifier2 a <? 64))) (range 16)) 16)
      in Ha; [|vm_compute; reflexivity].
    intros b Hb. exact (forall_range _ 16 Ha b Hb). }
  specialize (H u Hu v Hv).
  apply andb_true_iff in H. destruct H as [H B2].
  apply andb_true_iff in H. destruct H as [H B1].
  apply andb_true_iff in H. destruct H as [N12 D].
  apply negb_true_iff, Z.eqb_neq in N12.
  apply andb_true_iff in B1, B2.
  split; [assumption|]. split; [|lia].
  intros Huv. apply orb_true_iff in D. destruct D as [D|D].
  - apply Z.eqb_eq in D. contradiction.
  - apply andb_true_iff in D. destruct D as [D1 D2].
    apply negb_true_iff, Z.eqb_neq in D1. apply negb_true_iff, Z.eqb_neq in D2.
    split; assumption.
Qed.

Lemma kdf_modifiers_are_distinct_witness :
  modifier1 1 <> modifier2 9 /\
  (1 <> 9 -> modifier1 1 <> modifier1 9 /\ modifier2 1 <> modifier2 9) /\
  0 <= modifier1 1 < 64 /\ 0 <= modifier2 1 < 64.
Proof.
  apply (kdf_modifiers_are_distinct 1 9); lia.
Defined.

Lemma kdf_halves ikey_hi ikey_lo data_hi data_lo usage :
  fst (kdf ikey_hi ikey_lo data_hi data_lo usage)
  = modified_prince
      (Z.lxor (modified_prince data_hi ikey_hi ikey_lo (modifier1 usage)) data_lo)
      ikey_hi ikey_lo (modifier1 usage) /\
  snd (kdf ikey_hi ikey_lo data_hi data_lo usage)
  = modified_prince
      (Z.lxor (modified_prince data_hi ikey_hi ikey_lo (modifier2 usage)) data_lo)
      ikey_hi ikey_lo (modifier2 usage).
Proof. unfold kdf. split; reflexivity. Qed.

Lemma kdf_modifier_bounds u :
  0 <= u < 16 -> 0 <= modifier1 u < 64 /\ 0 <= modifier2 u < 64.
Proof.
  intros Hu.
  apply (forall_range
           (fun a => ((0 <=? modifier1 a) && (modifier1 a <? 64))
                     && ((0 <=? modifier2 a) && (modifier2 a <? 64))) 16) in Hu;
    [|vm_compute; reflexivity].
  apply andb_true_iff in Hu. destruct Hu as [H1 H2].
  apply andb_true_iff in H1, H2. lia.
Qed.


Lemma modifier_words usage :
  0 <= modifier1 usage < 2 ^ 64 /\ 0 <= modifier2 usage < 2 ^ 64.
Proof.
  destruct (modifier_low_bits usage) as [<- <-].
  assert (Hu : 0 <= Z.land usage 15 < 16).
  { change 15 with (Z.ones 4). rewrite Z.land_ones by lia.
    apply Z.mod_pos_bound. reflexivity. }
  destruct (kdf_modifier_bounds _ Hu) as [H1 H2]. lia.
Qed.

(** X21: with a 64-bit input key, both halves of the key that [kdf] derives
    are 64-bit values, and each half alone determines either half of the
    64-bit input data once the other half of the data is fixed. *)
Theorem kdf_is_injective_in_data ikey_hi ikey_lo data_hi data_lo data_hi' data_lo' usage :
  0 <= ikey_hi < 2 ^ 64 -> 0 <= ikey_lo < 2 ^ 64 ->
  0 <= data_hi < 2 ^ 64 -> 0 <= data_lo < 2 ^ 64 ->
  0 <= data_hi' < 2 ^ 64 -> 0 <= data_lo' < 2 ^ 64 ->
  (0 <= fst (kdf ikey_hi ikey_lo data_hi data_lo usage) < 2 ^ 64 /\
   0 <= snd (kdf ikey_hi ikey_lo data_hi data_lo usage) < 2 ^ 64) /\
  (fst (kdf ikey_hi ikey_lo data_hi data_lo usage)
   = fst (kdf ikey_hi ikey_lo data_hi data_lo' usage) -> data_lo = data_lo') /\
  (snd (kdf ikey_hi ikey_lo data_hi data_lo usage)
   = snd (kdf ikey_hi ikey_lo data_hi data_lo' usage) -> data_lo = data_lo') /\
  (fst (kdf ikey_hi ikey_lo data_hi data_lo usage)
   = fst (kdf ikey_hi ikey_lo data_hi' data_lo usage) -> data_hi = data_hi') /\
  (snd (kdf ikey_hi ikey_lo data_hi data_lo usage)
   = snd (kdf ikey_hi ikey_lo data_hi' data_lo usage) -> data_hi = data_hi').
Proof.
  intros Hkh Hkl Hdh Hdl Hdh' Hdl'.
  destruct (modifier_words usage) as [M1 M2].
  assert (W : forall v md, 0 <= md < 2 ^ 64 ->
                0 <= modified_prince v ikey_hi ikey_lo md < 2 ^ 64)
    by (intros; now apply modified_prince_word).
  assert (I : forall v v' md, 0 <= md < 2 ^ 64 ->
                0 <= v < 2 ^ 64 -> 0 <= v' < 2 ^ 64 ->
                modified_prince v ikey_hi ikey_lo md
                = modified_prince v' ikey_hi ikey_lo md -> v = v')
    by (intros v v' md; now apply modified_prince_inj).
  assert (J : forall dh dl dh' dl' md, 0 <= md < 2 ^ 64 ->
    0 <= dh < 2 ^ 64 -> 0 <= dl < 2 ^ 64 -> 0 <= dh' < 2 ^ 64 -> 0 <= dl' < 2 ^ 64 ->
    modified_prince (Z.lxor (modified_prince dh ikey_hi ikey_lo md) dl) ikey_hi ikey_lo md
    = modified_prince (Z.lxor (modified_prince dh' ikey_hi ikey_lo md) dl')
        ikey_hi ikey_lo md ->
    Z.lxor (modified_prince dh ikey_hi ikey_lo md) dl
    = Z.lxor (modified_prince dh' ikey_hi ikey_lo md) dl').
  { intros dh dl dh' dl' md Hmd H1 H2 H3 H4. apply I; trivial; apply lxor_word; auto. }
  pose proof (kdf_halves ikey_hi ikey_lo data_hi data_lo usage) as [F1 S1].
  pose proof (kdf_halves ikey_hi ikey_lo data_hi data_lo' usage) as [F2 S2].
  pose proof (kdf_halves ikey_hi ikey_lo data_hi' data_lo usage) as [F3 S3].
  rewrite F1, S1, F2, S2, F3, S3.
  split; [split; apply W; assumption|].
  split; [|split; [|split]]; intros H; apply J in H; trivial.
  - apply (f_equal (Z.lxor (modified_prince data_hi ikey_hi ikey_lo (modifier1 usage)))) in H.
    now rewrite <- !Z.lxor_assoc, Z.lxor_nilpotent, !Z.lxor_0_l in H.
  - apply (f_equal (Z.lxor (modified_prince data_hi ikey_hi ikey_lo (modifier2 usage)))) in H.
    now rewrite <- !Z.lxor_assoc, Z.lxor_nilpotent, !Z.lxor_0_l in H.
  - apply lxor_inj_r in H. now apply I in H.
  - apply lxor_inj_r in H. now apply I in H.
Qed.

Lemma kdf_is_injective_in_data_witness :
  (0 <= fst (kdf 1 2 3 4 5) < 2 ^ 64 /\ 0 <= snd (kdf 1 2 3 4 5) < 2 ^ 64) /\
  (fst (kdf 1 2 3 4 5) = fst (kdf 1 2 3 7 5) -> 4 = 7) /\
  (snd (kdf 1 2 3 4 5) = snd (kdf 1 2 3 7 5) -> 4 = 7) /\
  (fst (kdf 1 2 3 4 5) = fst (kdf 1 2 6 4 5) -> 3 = 6) /\
  (snd (kdf 1 2 3 4 5) = snd (kdf 1 2 6 4 5) -> 3 = 6).
Proof.
  apply (kdf_is_injective_in_data 1 2 3 4 6 7 5); lia.
Defined.

End MoreCipher.

(** * Properties of the lldb helpers *)

Section Lldb.
Import Prince AppleKdf FeatPAuth PtrauthLldb.
Import String.

Lemma sign_bit_selects ptr : (Z.land ptr _SIGN_BIT =? 0) = negb (Z.testbit ptr 55).
Proof.
  unfold _SIGN_BIT. rewrite <- (sign_bit_test ptr). now rewrite negb_involutive.
Qed.

Lemma params_read_bit_55 kern ptr ptr' data :
  Z.testbit ptr 55 = Z.testbit ptr' 55 ->
  _bottom_pac_bit kern ptr = _bottom_pac_bit kern ptr' /\
  _tbi kern ptr data = _tbi kern ptr' data.
Proof.
  intros H. unfold _bottom_pac_bit, _tbi. cbv zeta.
  rewrite !sign_bit_selects, H. split; reflexivity.
Qed.

Lemma cpu_key_valid kern key_name :
  In key_name _ARM_KEYS -> exists k_hi k_lo, _cpu_key kern key_name = Ok (k_hi, k_lo).
Proof.
  unfold _ARM_KEYS. intros [<-|[<-|[<-|[<-|[]]]]]; cbn; eauto.
Qed.

Lemma cpu_key_invalid kern key_name :
  ~ In key_name _ARM_KEYS -> _cpu_key kern key_name = Raise ArgumentError.
Proof.
  unfold _ARM_KEYS, _cpu_key. intros H. cbv zeta.
  destruct (String.eqb_spec key_name "DA") as [->|_]; [exfalso; apply H; cbn; auto|].
  destruct (String.eqb_spec key_name "DB") as [->|_]; [exfalso; apply H; cbn; auto|].
  destruct (String.eqb_spec key_name "IA") as [->|_]; [exfalso; apply H; cbn; auto|].
  destruct (String.eqb_spec key_name "IB") as [->|_]; [exfalso; apply H; cbn; auto|].
  reflexivity.
Qed.

Lemma of_option_not_argument_error {A : Type} (o : option A) :
  of_option o <> Raise ArgumentError.
Proof. destruct o; discriminate. Qed.

Lemma of_option_value_error {A : Type} (o : option A) :
  of_option o = Raise ValueError <-> o = None.
Proof. destruct o; cbn; split; congruence. Qed.

Lemma ptrauth_sign_eq kern key_name ptr modifier k_hi k_lo :
  _cpu_key kern key_name = Ok (k_hi, k_lo) ->
  ptrauth_sign kern key_name ptr modifier
  = of_option (AddPAC ptr (fst (_mix_kernkey kern k_hi k_lo))
                 (snd (_mix_kernkey kern k_hi k_lo)) modifier
                 (_bottom_pac_bit kern ptr)
                 (_tbi kern ptr (startswith key_name "D"))
                 (_enhanced_pac kern) (_enhanced_pac2 kern)).
Proof.
  intros E. unfold ptrauth_sign. rewrite E.
  destruct (_mix_kernkey kern k_hi k_lo). reflexivity.
Qed.

Lemma ptrauth_auth_eq kern key_name ptr modifier k_hi k_lo :
  _cpu_key kern key_name = Ok (k_hi, k_lo) ->
  ptrauth_auth kern key_name ptr modifier
  = of_option (Auth ptr (fst (_mix_kernkey kern k_hi k_lo))
                 (snd (_mix_kernkey kern k_hi k_lo)) (endswith key_name "B") modifier
                 (_bottom_pac_bit kern ptr)
                 (_tbi kern ptr (startswith key_name "D"))
                 (_enhanced_pac2 kern)).
Proof.
  intros E. unfold ptrauth_auth. rewrite E.
  destruct (_mix_kernkey kern k_hi k_lo). reflexivity.
Qed.

(** The round trip of [AddPAC] and [Auth] holds for either key family. *)
Lemma round_trip_any_key ptr k_hi k_lo b_key modifier bottom_pac_bit tbi ehp ehp2 :
  0 <= bottom_pac_bit <= 55 ->
  canonical ptr bottom_pac_bit tbi = true ->
  exists signed stripped,
    AddPAC ptr k_hi k_lo modifier bottom_pac_bit tbi ehp ehp2 = Some signed /\
    Strip ptr bottom_pac_bit tbi = Some stripped /\
    Strip signed bottom_pac_bit tbi = Some stripped /\
    Auth signed k_hi k_lo b_key modifier bottom_pac_bit tbi ehp2 = Some stripped /\
    Z.testbit signed 55 = Z.testbit ptr 55.
Proof.
  intros Hb Hc.
  destruct (Strip_defined ptr bottom_pac_bit tbi Hb) as [orig ES].
  destruct (PACMask_defined bottom_pac_bit tbi Hb) as [mask EM].
  pose proof (PACMask_Some _ _ _ EM) as [_ Hm].
  rewrite (AddPAC_eq _ k_hi k_lo modifier _ _ ehp ehp2 _ _ ES EM).
  rewrite Hc. cbn [negb andb]. cbv zeta.
  eexists; exists orig. split; [reflexivity|]. split; [assumption|].
  split; [rewrite Strip_after_insert by eassumption; assumption|].
  split.
  - erewrite Auth_eq;
      [| rewrite Strip_after_insert by eassumption; eassumption | eassumption].
    f_equal. cbv zeta. destruct ehp2.
    + rewrite Z.lxor_assoc, Z.lxor_nilpotent, Z.lxor_0_r.
      symmetry. apply Strip_canonical with bottom_pac_bit tbi; assumption.
    + rewrite overwritten_field, Z.eqb_refl. reflexivity.
  - apply insert_pac_outside with bottom_pac_bit tbi; [assumption | apply in_field_55].
Qed.

(** X22: for each CPU key name and a pointer that is canonical for the
    translation parameters the kernel globals give it, [ptrauth_auth] of
    [ptrauth_sign] returns what [ptrauth_strip] returns for the pointer, and
    stripping the signed pointer gives the same. *)
Theorem ptrauth_sign_auth_round_trip kern key_name ptr modifier :
  In key_name _ARM_KEYS ->
  0 <= _bottom_pac_bit kern ptr <= 55 ->
  canonical ptr (_bottom_pac_bit kern ptr)
            (_tbi kern ptr (startswith key_name "D")) = true ->
  exists signed stripped,
    ptrauth_sign kern key_name ptr modifier = Ok signed /\
    ptrauth_strip kern ptr (startswith key_name "D") = Ok stripped /\
    ptrauth_auth kern key_name signed modifier = Ok stripped /\
    ptrauth_strip kern signed (startswith key_name "D") = Ok stripped.
Proof.
  intros Hk Hb Hc. destruct (cpu_key_valid kern key_name Hk) as (k_hi & k_lo & EK).
  destruct (round_trip_any_key ptr (fst (_mix_kernkey kern k_hi k_lo))
              (snd (_mix_kernkey kern k_hi k_lo)) (endswith key_name "B") modifier
              _ _ (_enhanced_pac kern) (_enhanced_pac2 kern) Hb Hc)
    as (signed & stripped & EA & ES & ES' & EU & E55).
  destruct (params_read_bit_55 kern signed ptr (startswith key_name "D") E55)
    as [Eb Et].
  exists signed, stripped.
  rewrite (ptrauth_sign_eq _ _ _ _ _ _ EK), (ptrauth_auth_eq _ _ _ _ _ _ EK).
  unfold ptrauth_strip. cbv zeta. rewrite Eb, Et, EA, ES, ES', EU.
  repeat split.
Qed.

Lemma ptrauth_sign_auth_round_trip_witness :
  exists signed stripped,
    ptrauth_sign example_kern "IB" 0xfffffff012345678 7 = Ok signed /\
    ptrauth_strip example_kern 0xfffffff012345678 (startswith "IB" "D") = Ok stripped /\
    ptrauth_auth example_kern "IB" signed 7 = Ok stripped /\
    ptrauth_strip example_kern signed (startswith "IB" "D") = Ok stripped.
Proof.
  apply (ptrauth_sign_auth_round_trip example_kern "IB" 0xfffffff012345678 7).
  - cbn. auto.
  - vm_compute. split; discriminate.
  - vm_compute. reflexivity.
Defined.

Lemma bottom_pac_bit_range kern ptr :
  0 <= _bottom_pac_bit kern ptr <= 55 <->
  9 <= (if Z.testbit ptr 55 then gT1Sz kern else gT0Sz kern) <= 64.
Proof.
  unfold _bottom_pac_bit. cbv zeta. rewrite sign_bit_selects.
  destruct (Z.testbit ptr 55); cbn [negb]; lia.
Qed.

Lemma kernel_key_invalid kern key_name :
  ~ In key_name ["IA"%string; "DA"%string; "KERN"%string] ->
  ptrauth_kernel_key kern key_name = Raise ArgumentError.
Proof.
  unfold ptrauth_kernel_key. intros H. cbv zeta.
  destruct (String.eqb_spec key_name "IA") as [->|_]; [exfalso; apply H; cbn; auto|].
  destruct (String.eqb_spec key_name "DA") as [->|_]; [exfalso; apply H; cbn; auto|].
  destruct (String.eqb_spec key_name "KERN") as [->|_]; [exfalso; apply H; cbn; auto|].
  reflexivity.
Qed.

Lemma kernel_key_valid kern key_name :
  In key_name ["IA"%string; "DA"%string; "KERN"%string] ->
  exists key, ptrauth_kernel_key kern key_name = Ok key.
Proof.
  intros [<-|[<-|[<-|[]]]]; unfold ptrauth_kernel_key; cbv zeta;
    cbn [String.eqb Ascii.eqb Bool.eqb]; eauto.
Qed.

(** X23: the macros reject a bad key name before anything else:
    [ptrauth_sign] and [ptrauth_auth] raise [ArgumentError] exactly for the
    names other than DA, DB, IA and IB, and [ptrauth_kernel_key] exactly for
    the names other than IA, DA and KERN (so also for DB and IB).  With a
    good key name, [ptrauth_sign] and [ptrauth_auth] raise [ValueError]
    exactly when the TxSZ selected by bit 55 of the pointer is outside
    9..64, which is also when [ptrauth_strip] raises. *)
Theorem lldb_macro_errors kern key_name ptr modifier data :
  (ptrauth_sign kern key_name ptr modifier = Raise ArgumentError
   <-> ~ In key_name _ARM_KEYS) /\
  (ptrauth_auth kern key_name ptr modifier = Raise ArgumentError
   <-> ~ In key_name _ARM_KEYS) /\
  (ptrauth_kernel_key kern key_name = Raise ArgumentError
   <-> ~ In key_name ["IA"%string; "DA"%string; "KERN"%string]) /\
  (ptrauth_sign kern key_name ptr modifier = Raise ValueError
   <-> In key_name _ARM_KEYS /\
       ~ 9 <= (if Z.testbit ptr 55 then gT1Sz kern else gT0Sz kern) <= 64) /\
  (ptrauth_auth kern key_name ptr modifier = Raise ValueError
   <-> In key_name _ARM_KEYS /\
       ~ 9 <= (if Z.testbit ptr 55 then gT1Sz kern else gT0Sz kern) <= 64) /\
  (ptrauth_strip kern ptr data = Raise ValueError
   <-> ~ 9 <= (if Z.testbit ptr 55 then gT1Sz kern else gT0Sz kern) <= 64).
Proof.
  rewrite <- (bottom_pac_bit_range kern ptr).
  assert (Dk : In key_name _ARM_KEYS \/ ~ In key_name _ARM_KEYS).
  { destruct (in_dec string_dec key_name _ARM_KEYS); auto. }
  assert (Dg : In key_name ["IA"%string; "DA"%string; "KERN"%string] \/ ~ In key_name ["IA"%string; "DA"%string; "KERN"%string]).
  { destruct (in_dec string_dec key_name ["IA"%string; "DA"%string; "KERN"%string]); auto. }
  assert (RS : forall k_hi k_lo b_key tbi ehp ehp2,
    (AddPAC ptr k_hi k_lo modifier (_bottom_pac_bit kern ptr) tbi ehp ehp2 = None
     <-> ~ 0 <= _bottom_pac_bit kern ptr <= 55) /\
    (Auth ptr k_hi k_lo b_key modifier (_bottom_pac_bit kern ptr) tbi ehp2 = None
     <-> ~ 0 <= _bottom_pac_bit kern ptr <= 55) /\
    (Strip ptr (_bottom_pac_bit kern ptr) tbi = None
     <-> ~ 0 <= _bottom_pac_bit kern ptr <= 55)).
  { intros k_hi k_lo b_key tbi ehp ehp2.
    assert (D : 0 <= _bottom_pac_bit kern ptr <= 55 \/
                (_bottom_pac_bit kern ptr < 0 \/ 55 < _bottom_pac_bit kern ptr)) by lia.
    destruct D as [D|D].
    - destruct (AddPAC_defined ptr k_hi k_lo modifier _ tbi ehp ehp2 D) as [r1 E1].
      destruct (Auth_defined ptr k_hi k_lo b_key modifier _ tbi ehp2 D) as [r2 E2].
      destruct (Strip_defined ptr _ tbi D) as [r3 E3].
      rewrite E1, E2, E3. repeat split; intros H; try discriminate H; contradiction.
    - rewrite (AddPAC_raises _ _ _ _ _ _ _ _ D), (Auth_raises _ _ _ _ _ _ _ _ D),
              (Strip_raises _ _ _ D).
      repeat split; intros _; try reflexivity; lia. }
  split; [|split; [|split; [|split; [|split]]]].
  - destruct Dk as [Hk|Hk].
    + destruct (cpu_key_valid kern key_name Hk) as (k_hi & k_lo & EK).
      rewrite (ptrauth_sign_eq _ _ _ _ _ _ EK). split; [|contradiction].
      intros H. now apply of_option_not_argument_error in H.
    + unfold ptrauth_sign. rewrite (cpu_key_invalid _ _ Hk). split; trivial.
  - destruct Dk as [Hk|Hk].
    + destruct (cpu_key_valid kern key_name Hk) as (k_hi & k_lo & EK).
      rewrite (ptrauth_auth_eq _ _ _ _ _ _ EK). split; [|contradiction].
      intros H. now apply of_option_not_argument_error in H.
    + unfold ptrauth_auth. rewrite (cpu_key_invalid _ _ Hk). split; trivial.
  - destruct Dg as [Hk|Hk].
    + destruct (kernel_key_valid kern key_name Hk) as [key EK]. rewrite EK.
      split; [discriminate | contradiction].
    + rewrite (kernel_key_invalid _ _ Hk). split; trivial.
  - destruct Dk as [Hk|Hk].
    + destruct (cpu_key_valid kern key_name Hk) as (k_hi & k_lo & EK).
      rewrite (ptrauth_sign_eq _ _ _ _ _ _ EK), of_option_value_error.
      rewrite (proj1 (RS _ _ false _ _ _)). tauto.
    + unfold ptrauth_sign. rewrite (cpu_key_invalid _ _ Hk).
      split; [discriminate | tauto].
  - destruct Dk as [Hk|Hk].
    + destruct (cpu_key_valid kern key_name Hk) as (k_hi & k_lo & EK).
      rewrite (ptrauth_auth_eq _ _ _ _ _ _ EK), of_option_value_error.
      rewrite (proj1 (proj2 (RS _ _ _ _ false _))). tauto.
    + unfold ptrauth_auth. rewrite (cpu_key_invalid _ _ Hk).
      split; [discriminate | tauto].
  - unfold ptrauth_strip. cbv zeta. rewrite of_option_value_error.
    apply (proj2 (proj2 (RS 0 0 false _ false false))).
Qed.

(** X24: when the TxSZ selected by bit 55 of the pointer is in 9..64,
    [ptrauth_strip] returns a pointer that it returns unchanged when applied
    again: stripping keeps bit 55, so the second call selects the same
    translation parameters. *)
Theorem ptrauth_strip_idempotent kern ptr data :
  9 <= (if Z.testbit ptr 55 then gT1Sz kern else gT0Sz kern) <= 64 ->
  exists stripped,
    ptrauth_strip kern ptr data = Ok stripped /\
    ptrauth_strip kern stripped data = Ok stripped /\
    canonical stripped (_bottom_pac_bit kern ptr) (_tbi kern ptr data) = true.
Proof.
  intros H. apply bottom_pac_bit_range in H.
  destruct (Strip_defined ptr _ (_tbi kern ptr data) H) as [r ES].
  assert (E55 : Z.testbit r 55 = Z.testbit ptr 55)
    by now rewrite (Strip_testbit _ _ _ _ 55 ES), in_field_55.
  destruct (params_read_bit_55 kern r ptr data E55) as [Eb Et].
  destruct (Strip_defined r _ (_tbi kern ptr data) H) as [r' ES'].
  assert (r' = r).
  { apply Z.bits_inj'. intros i Hi.
    rewrite (Strip_testbit _ _ _ _ i ES'), (Strip_testbit _ _ _ _ 55 ES),
            (Strip_testbit _ _ _ _ i ES), in_field_55.
    destruct (in_field _ _ i); reflexivity. }
  subst r'. exists r. unfold ptrauth_strip. cbv zeta.
  rewrite Eb, Et, ES, ES'.
  split; [reflexivity|]. split; [reflexivity|].
  now apply Strip_is_canonical with ptr.
Qed.

Lemma ptrauth_strip_idempotent_witness :
  exists stripped,
    ptrauth_strip example_kern 0x1234567812345678 true = Ok stripped /\
    ptrauth_strip example_kern stripped true = Ok stripped /\
    canonical stripped (_bottom_pac_bit example_kern 0x1234567812345678)
              (_tbi example_kern 0x1234567812345678 true) = true.
Proof.
  apply (ptrauth_strip_idempotent example_kern 0x1234567812345678 true).
  vm_compute. split; discriminate.
Defined.

(** X25: the CPU-mode parameters that the macros pass on depend on the
    pointer only through its bit 55; whenever the top byte is ignored for an
    instruction pointer it is ignored for a data pointer too; and the macros
    never report EnhancedPAC and EnhancedPAC2 together. *)
Theorem lldb_parameters kern ptr ptr' data :
  Z.testbit ptr 55 = Z.testbit ptr' 55 ->
  _bottom_pac_bit kern ptr = _bottom_pac_bit kern ptr' /\
  _tbi kern ptr data = _tbi kern ptr' data /\
  (_tbi kern ptr false = true -> _tbi kern ptr true = true) /\
  _enhanced_pac kern && _enhanced_pac2 kern = false.
Proof.
  intros H. destruct (params_read_bit_55 kern ptr ptr' data H) as [Eb Et].
  split; [assumption|]. split; [assumption|]. split.
  - unfold _tbi. cbv zeta. intros T. apply andb_true_iff in T.
    destruct T as [T _]. rewrite T. reflexivity.
  - unfold _enhanced_pac, _enhanced_pac2. cbv zeta.
    destruct (Z.eqb_spec (id_aa64isar1_el1_api (faulting_pac_state kern)) 2) as [->|];
      [reflexivity|].
    destruct (Z.eqb_spec (id_aa64isar1_el1_api (faulting_pac_state kern)) 3) as [->|];
      reflexivity.
Qed.

Lemma lldb_parameters_witness :
  _bottom_pac_bit example_kern 0x0080000000000000
  = _bottom_pac_bit example_kern 0xfffffff012345678 /\
  _tbi example_kern 0x0080000000000000 true
  = _tbi example_kern 0xfffffff012345678 true /\
  (_tbi example_kern 0x0080000000000000 false = true ->
   _tbi example_kern 0x0080000000000000 true = true) /\
  _enhanced_pac example_kern && _enhanced_pac2 example_kern = false.
Proof.
  apply (lldb_parameters example_kern 0x0080000000000000 0xfffffff012345678 true).
  reflexivity.
Defined.

End Lldb.
